(** * YouTube interceptor addon: eligibility, injection and header reconciliation

    A shallow embedding of [youtube_interceptor.py].  Python [str] values are
    sequences of Unicode code points; the document tree is the parsing
    library's tree of tags and strings; the handler [response] runs in a
    small monad that threads the flow and the log and carries Python's
    [return] and [raise].  The proxy engine's replacement of the body is a
    parameter of the handler: [response_engine] is the handler over any
    engine, [response] the handler over an engine that replaces the text and
    nothing else. *)

From Stdlib Require Import NArith String Ascii DecimalN Lia.
From stdpp Require Import base option list.

Set Warnings "-register-all".
Local Open Scope N_scope.

(** ** Python strings *)

(** A Python [str]: a sequence of code points. *)
Definition str := list N.

(** A source literal made of ASCII characters. *)
Fixpoint lit (s : string) : str :=
  match s with
  | EmptyString => []
  | String a s' => N_of_ascii a :: lit s'
  end.

Definition str_eqb (a b : str) : bool := bool_decide (a = b).

(** [s.startswith(p)]. *)
Fixpoint startswith (p s : str) : bool :=
  match p, s with
  | [], _ => true
  | _ :: _, [] => false
  | a :: p', b :: s' => (a =? b) && startswith p' s'
  end.

(** [p in s] on strings: [p] occurs in [s] as a contiguous substring. *)
Fixpoint contains (p s : str) : bool :=
  startswith p s ||
  match s with
  | [] => false
  | _ :: s' => contains p s'
  end.

(** [p] occurs in [s]: some text, then [p], then the remaining text. *)
Definition substring (p s : str) : Prop := exists l r, s = l ++ p ++ r.

(** [c.isspace()]: the code points [str.strip()] removes. *)
Definition isspace (c : N) : bool :=
  ((0x09 <=? c) && (c <=? 0x0D)) || ((0x1C <=? c) && (c <=? 0x20))
  || (c =? 0x85) || (c =? 0xA0) || (c =? 0x1680)
  || ((0x2000 <=? c) && (c <=? 0x200A))
  || (c =? 0x2028) || (c =? 0x2029) || (c =? 0x202F) || (c =? 0x205F)
  || (c =? 0x3000).

Fixpoint lstrip (s : str) : str :=
  match s with
  | [] => []
  | c :: s' => if isspace c then lstrip s' else s
  end.

Definition rstrip (s : str) : str := rev (lstrip (rev s)).

(** [s.strip()]. *)
Definition strip (s : str) : str := rstrip (lstrip s).

(** Lower-casing of one ASCII code point; other code points are left alone. *)
Definition ascii_lower_char (c : N) : N :=
  if (0x41 <=? c) && (c <=? 0x5A) then c + 0x20 else c.

(** [s.lower()] on a string of ASCII characters. *)
Definition ascii_lower (s : str) : str := map ascii_lower_char s.

Definition is_ascii (s : str) : Prop := Forall (fun c => c < 0x80) s.

(** ** Exceptions *)

Inductive Exception : Type :=
| UnicodeEncodeError (pos : nat)
| LibraryError (msg : str).

(** ** [s.encode('utf-8')] *)

(** The UTF-8 bytes of one code point; surrogates cannot be encoded. *)
Definition utf8_char (c : N) : option (list N) :=
  if c <? 0x80 then Some [c]
  else if c <? 0x800 then
    Some [N.lor 0xC0 (N.shiftr c 6); N.lor 0x80 (N.land c 0x3F)]
  else if (0xD800 <=? c) && (c <=? 0xDFFF) then None
  else if c <? 0x10000 then
    Some [N.lor 0xE0 (N.shiftr c 12);
          N.lor 0x80 (N.land (N.shiftr c 6) 0x3F);
          N.lor 0x80 (N.land c 0x3F)]
  else if c <? 0x110000 then
    Some [N.lor 0xF0 (N.shiftr c 18);
          N.lor 0x80 (N.land (N.shiftr c 12) 0x3F);
          N.lor 0x80 (N.land (N.shiftr c 6) 0x3F);
          N.lor 0x80 (N.land c 0x3F)]
  else None.

Fixpoint encode_from (pos : nat) (s : str) : Exception + list N :=
  match s with
  | [] => inr []
  | c :: s' =>
      match utf8_char c with
      | None => inl (UnicodeEncodeError pos)
      | Some bs =>
          match encode_from (S pos) s' with
          | inl e => inl e
          | inr rest => inr (bs ++ rest)
          end
      end
  end.

Definition encode_utf8 (s : str) : Exception + list N := encode_from 0%nat s.

(** [len(b)] as a Python int. *)
Definition len {A} (l : list A) : N := N.of_nat (length l).

(** ** Two other codecs

    A response declares the charset of its body; the engine decodes and
    encodes the body text with the codec of that charset. *)

(** [s.encode('iso-8859-1')]: one byte for each code point below 256. *)
Fixpoint latin1_from (pos : nat) (s : str) : Exception + list N :=
  match s with
  | [] => inr []
  | c :: s' =>
      if c <? 0x100 then
        match latin1_from (S pos) s' with
        | inl e => inl e
        | inr rest => inr (c :: rest)
        end
      else inl (UnicodeEncodeError pos)
  end.

Definition encode_latin1 (s : str) : Exception + list N := latin1_from 0%nat s.

Definition hex_digit (n : N) : N := if n <? 10 then 0x30 + n else 0x57 + n.

(** The last [width] hexadecimal digits of [c], in lower case. *)
Fixpoint hex_digits (width : nat) (c : N) : list N :=
  match width with
  | O => []
  | S width' => hex_digits width' (N.shiftr c 4) ++ [hex_digit (N.land c 0xF)]
  end.

(** [s.encode('raw_unicode_escape')]: one byte for each code point below
    256, and a backslash, [u] or [U] and four or eight hexadecimal digits for
    every other code point, surrogates included. *)
Definition raw_unicode_escape_char (c : N) : list N :=
  if c <? 0x100 then [c]
  else if c <? 0x10000 then [0x5C; 0x75] ++ hex_digits 4 c
  else [0x5C; 0x55] ++ hex_digits 8 c.

Definition encode_raw_unicode_escape (s : str) : Exception + list N :=
  inr (flat_map raw_unicode_escape_char s).

(** ** [str(n)] and the numeric value of a decimal string *)

Fixpoint digits_of_uint (d : Decimal.uint) : str :=
  match d with
  | Decimal.Nil => []
  | Decimal.D0 d' => 0x30 :: digits_of_uint d'
  | Decimal.D1 d' => 0x31 :: digits_of_uint d'
  | Decimal.D2 d' => 0x32 :: digits_of_uint d'
  | Decimal.D3 d' => 0x33 :: digits_of_uint d'
  | Decimal.D4 d' => 0x34 :: digits_of_uint d'
  | Decimal.D5 d' => 0x35 :: digits_of_uint d'
  | Decimal.D6 d' => 0x36 :: digits_of_uint d'
  | Decimal.D7 d' => 0x37 :: digits_of_uint d'
  | Decimal.D8 d' => 0x38 :: digits_of_uint d'
  | Decimal.D9 d' => 0x39 :: digits_of_uint d'
  end.

(** [str(n)] for a non-negative int. *)
Definition str_of_int (n : N) : str := digits_of_uint (N.to_uint n).

(** The number a string of decimal digits denotes ([None] when some
    character is not a digit or the string is empty). *)
Fixpoint int_of_digits (acc : N) (s : str) : option N :=
  match s with
  | [] => Some acc
  | c :: s' =>
      if (0x30 <=? c) && (c <=? 0x39) then int_of_digits (10 * acc + (c - 0x30)) s'
      else None
  end.

Definition int_of_str (s : str) : option N :=
  match s with
  | [] => None
  | _ => int_of_digits 0 s
  end.

(** ** The document tree of the parsing library *)

Inductive string_class : Type :=
| PlainString | Comment | Doctype | CData | Declaration | ProcessingInstruction.

(** Modelled from the spec: the document tree of the parsing library.  A
    node is a string (text, comment, doctype, ...) or an element with its
    tag name, attributes and ordered children. *)
Inductive node : Type :=
| NavigableString (cls : string_class) (s : str)
| Tag (name : str) (attrs : list (str * str)) (contents : list node).

(** The [BeautifulSoup] object, given by its top-level children. *)
Definition soup := list node.

(** A reference to a tag inside a soup: the child indices leading to it.
    The empty path refers to the soup object itself. *)
Definition path := list nat.

Definition node_contents (n : node) : list node :=
  match n with
  | NavigableString _ _ => []
  | Tag _ _ cs => cs
  end.

(** Modelled from the spec: the tree query for a named element.  The
    search visits a node and its descendants in document order and returns
    the first tag called [name]. *)
Fixpoint find_node (name : str) (n : node) : option path :=
  match n with
  | NavigableString _ _ => None
  | Tag nm _ cs =>
      if str_eqb nm name then Some []
      else
        (fix find_list (l : list node) (i : nat) : option path :=
           match l with
           | [] => None
           | c :: l' =>
               match find_node name c with
               | Some p => Some (i :: p)
               | None => find_list l' (S i)
               end
           end) cs 0%nat
  end.

(** The same search over a list of siblings, the first of which has index [i]. *)
Fixpoint find_in (name : str) (l : list node) (i : nat) : option path :=
  match l with
  | [] => None
  | c :: l' =>
      match find_node name c with
      | Some p => Some (i :: p)
      | None => find_in name l' (S i)
      end
  end.

(** [soup.find(name)]: the first descendant tag called [name], if any. *)
Definition soup_find (name : str) (s : soup) : option path := find_in name s 0%nat.

(** The soup object itself is a tag, called [[document]]. *)
Definition document (s : soup) : node := Tag (lit "[document]") [] s.

(** The node a path leads to, starting from [n]. *)
Fixpoint node_at (p : path) (n : node) : option node :=
  match p with
  | [] => Some n
  | i :: p' =>
      match node_contents n !! i with
      | None => None
      | Some c => node_at p' c
      end
  end.

(** The node a path refers to in a soup. *)
Definition get_at (p : path) (s : soup) : option node := node_at p (document s).

(** Modelled from the spec: insertion at a position,
    [contents.insert(min(position, len(contents)), new)]. *)
Definition list_insert_at {A} (position : nat) (new : A) (l : list A) : list A :=
  take position l ++ new :: drop position l.

(** Modelled from the spec: the tree mutation [tag.insert(position, new)],
    where [tag] is the tag the path [p] leads to from [n]. *)
Fixpoint node_insert (p : path) (position : nat) (new : node) (n : node) : node :=
  match n with
  | NavigableString _ _ => n
  | Tag nm a cs =>
      Tag nm a
        match p with
        | [] => list_insert_at position new cs
        | i :: p' => alter (node_insert p' position new) i cs
        end
  end.

(** [tag.insert(position, new)] where [tag] is the tag at path [p] of a soup. *)
Definition tag_insert (p : path) (position : nat) (new : node) (s : soup) : soup :=
  node_contents (node_insert p position new (document s)).

(** Modelled from the spec: element creation, [soup.new_tag(name)]. *)
Definition new_tag (name : str) : node := Tag name [] [].

(** Modelled from the spec: setting the text content, [tag.string = s]; the
    tag's children become the single string [s]. *)
Definition set_string (t : node) (s : str) : node :=
  match t with
  | NavigableString _ _ => t
  | Tag nm a _ => Tag nm a [NavigableString PlainString s]
  end.

(** The script tag built from a payload (source lines 138-139). *)
Definition script_tag (payload : str) : node :=
  set_string (new_tag (lit "script")) (strip payload).

(** The structural mutation of the handler (source lines 125-142): find the
    head tag, or create one as the first child of the html tag, and insert
    the script as the head's first child.  [None] is the branch that warns
    and returns without injecting. *)
Definition inject (s : soup) (payload : str) : option soup :=
  match soup_find (lit "head") s with
  | Some head => Some (tag_insert head 0 (script_tag payload) s)
  | None =>
      match soup_find (lit "html") s with
      | Some html_tag =>
          let s1 := tag_insert html_tag 0 (new_tag (lit "head")) s in
          let head := html_tag ++ [0%nat] in
          Some (tag_insert head 0 (script_tag payload) s1)
      | None => None
      end
  end.

(** The text of the first child of the tag at [p] when that child is a
    script tag holding one string. *)
Definition script_text_at (p : path) (s : soup) : option str :=
  match get_at p s with
  | Some (Tag _ _ (Tag nm _ [NavigableString _ t] :: _)) =>
      if str_eqb nm (lit "script") then Some t else None
  | _ => None
  end.

(** ** The flow handed over by the proxy *)

(** Modelled from the spec: the response body as the proxy engine gives
    access to it.  [flow.response.get_text()] returns the decoded text,
    returns [None], or raises when the content cannot be decoded. *)
Inductive Body : Type :=
| BodyText (s : str)
| BodyNone
| BodyUndecodable (e : Exception).

(** Modelled from the spec: the response headers, an ordered mapping of
    field names to values whose keys are compared without regard to case. *)
Definition Headers := list (str * str).

Record Request : Type := mkRequest {
  pretty_host : option str;
  pretty_url : str }.

Record Response : Type := mkResponse {
  headers : Headers;
  body : Body }.

Record HTTPFlow : Type := mkFlow {
  request : Request;
  flow_response : Response }.

(** ** The log *)

Inductive Level : Type := INFO | WARNING | ERROR.

Inductive Message : Type :=
| Intercepting (url : str)
| FailedToParse (e : Exception)
| NoHeadOrHtml
| Injected (url : str)
| ErrorProcessing (url : str) (e : Exception).

Definition LogRecord : Type := Level * Message.

(** ** The monad of the handler *)

Record World : Type := mkWorld {
  w_flow : HTTPFlow;
  w_log : list LogRecord }.

(** How a block of statements ends: it falls through with a value, it
    executes [return], or it raises. *)
Inductive Completion (A : Type) : Type :=
| Normal (a : A)
| Returned
| Raised (e : Exception).
Arguments Normal {A} a.
Arguments Returned {A}.
Arguments Raised {A} e.

Definition Py (A : Type) : Type := World -> Completion A * World.

Definition pure {A} (a : A) : Py A := fun w => (Normal a, w).

Definition bind {A B} (c : Py A) (k : A -> Py B) : Py B :=
  fun w =>
    match c w with
    | (Normal a, w') => k a w'
    | (Returned, w') => (Returned, w')
    | (Raised e, w') => (Raised e, w')
    end.

Notation "'let*' x ':=' c 'in' k" := (bind c (fun x => k))
  (at level 10, x name, c at level 100, k at level 200).
Notation "c ;;; k" := (bind c (fun _ => k))
  (at level 100, k at level 200, right associativity).

(** [return] *)
Definition return_ {A} : Py A := fun w => (Returned, w).

(** [raise e] *)
Definition raise {A} (e : Exception) : Py A := fun w => (Raised e, w).

(** A call that returns a value or raises. *)
Definition call {A} (r : Exception + A) : Py A :=
  match r with
  | inl e => raise e
  | inr a => pure a
  end.

(** [try: c  except Exception as e: h e] *)
Definition try_except {A} (c : Py A) (h : Exception -> Py A) : Py A :=
  fun w =>
    match c w with
    | (Raised e, w') => h e w'
    | r => r
    end.

(** [if b: return] *)
Definition return_if (b : bool) : Py unit :=
  if b then return_ else pure tt.

Definition get_flow : Py HTTPFlow := fun w => (Normal (w_flow w), w).

(** [logger.info], [logger.warning], [logger.error] *)
Definition logger (lvl : Level) (m : Message) : Py unit :=
  fun w => (Normal tt, mkWorld (w_flow w) (w_log w ++ [(lvl, m)])).

(** [flow.response.get_text()] *)
Definition get_text : Py (option str) :=
  let* flow := get_flow in
  match body (flow_response flow) with
  | BodyText s => pure (Some s)
  | BodyNone => pure None
  | BodyUndecodable e => raise e
  end.

(** What the [set_text] of an engine does to a response: the response it
    leaves behind and, when it raises, the exception.  An engine encodes the
    text for the wire in the charset of the response, and it can assign
    header fields of its own. *)
Definition SetText : Type := str -> Response -> Response * option Exception.

(** [flow.response.set_text(text)] over an engine. *)
Definition set_text_by (engine : SetText) (text : str) : Py unit :=
  fun w =>
    let f := w_flow w in
    let out := engine text (flow_response f) in
    (match out.2 with
     | Some e => Raised e
     | None => Normal tt
     end,
     mkWorld (mkFlow (request f) out.1) (w_log w)).

(** Modelled from the spec: an engine whose [set_text] puts the text in
    place of the body, leaves the headers alone and does not raise. *)
Definition text_only : SetText :=
  fun text r => (mkResponse (headers r) (BodyText text), None).

(** [flow.response.set_text(text)] over that engine. *)
Definition set_text (text : str) : Py unit := set_text_by text_only text.

(** [not content] for a value that is [None] or a string. *)
Definition falsy (content : option str) : bool :=
  match content with
  | None => true
  | Some [] => true
  | Some (_ :: _) => false
  end.

(** ** The addon *)

Record YouTubeInterceptor : Type := mkInterceptor {
  youtube_domains : list str;
  injection_script : str }.

(** [YouTubeInterceptor.__init__] *)
Definition YouTubeInterceptor_init : YouTubeInterceptor :=
  {| youtube_domains :=
       [lit "youtube.com"; lit "m.youtube.com"; lit "www.youtube.com";
        lit "music.youtube.com"];
     injection_script := lit "
(function() {
    // Function to safely log ytInitialData
    function logYtInitialData() {
        if (typeof window.ytInitialData !== 'undefined') {
            console.log('=== YouTube Initial Data ===');
            console.log(JSON.stringify(window.ytInitialData, null, 2));
            console.log('=== End YouTube Initial Data ===');
            
            // Also store it in a global variable for easy access
            window._capturedYtInitialData = window.ytInitialData;
            
            // Dispatch a custom event for external scripts
            window.dispatchEvent(new CustomEvent('ytInitialDataCaptured', {
                detail: window.ytInitialData
            }));
        } else {
            console.log('ytInitialData not found on window object');
        }
    }
    
    // Try to log immediately if data is already available
    if (document.readyState === 'loading') {
        document.addEventListener('DOMContentLoaded', logYtInitialData);
    } else {
        logYtInitialData();
    }
    
    // Also try after a short delay to catch dynamically loaded data
    setTimeout(logYtInitialData, 1000);
    setTimeout(logYtInitialData, 3000);
    
    // Monitor for changes to ytInitialData
    let lastYtData = null;
    setInterval(function() {
        if (window.ytInitialData && JSON.stringify(window.ytInitialData) !== lastYtData) {
            lastYtData = JSON.stringify(window.ytInitialData);
            console.log('=== YouTube Initial Data Updated ===');
            console.log(lastYtData);
            console.log('=== End Updated Data ===');
        }
    }, 2000);
})();
" |}.

(** ** A small instance of the parsing library

    The parser and the serializer of the parsing library are parameters of
    the handler.  The two functions below instantiate them on examples:
    [mini_decode] writes tags, attributes and strings the way the library's
    serializer does, and [mini_parse] is a tolerant parser for markup made
    of attribute-free tags and text. *)

Definition void_elements : list str :=
  map lit ["area"; "base"; "br"; "col"; "embed"; "hr"; "img"; "input";
           "link"; "meta"; "param"; "source"; "track"; "wbr"]%string.

Definition is_raw_text_tag (name : str) : bool :=
  str_eqb name (lit "script") || str_eqb name (lit "style").

(** Escaping of text outside script and style: [&], [<] and [>]. *)
Fixpoint escape_text (s : str) : str :=
  match s with
  | [] => []
  | c :: s' =>
      (if c =? 0x26 then lit "&amp;"
       else if c =? 0x3C then lit "&lt;"
       else if c =? 0x3E then lit "&gt;"
       else [c]) ++ escape_text s'
  end.

Definition decode_attr (a : str * str) : str :=
  lit " " ++ a.1 ++ lit "=" ++ [0x22] ++ escape_text a.2 ++ [0x22].

Definition decode_string (cls : string_class) (raw : bool) (s : str) : str :=
  match cls with
  | PlainString => if raw then s else escape_text s
  | Comment => lit "<!--" ++ s ++ lit "-->"
  | Doctype => lit "<!DOCTYPE " ++ s ++ lit ">"
  | CData => lit "<![CDATA[" ++ s ++ lit "]]>"
  | Declaration => lit "<?" ++ s ++ lit "?>"
  | ProcessingInstruction => lit "<?" ++ s ++ lit ">"
  end.

Fixpoint decode_node (raw : bool) (n : node) : str :=
  match n with
  | NavigableString cls s => decode_string cls raw s
  | Tag nm attrs cs =>
      let open := lit "<" ++ nm ++ concat (map decode_attr attrs) in
      match cs with
      | [] =>
          if bool_decide (nm ∈ void_elements) then open ++ lit "/>"
          else open ++ lit "></" ++ nm ++ lit ">"
      | _ :: _ =>
          open ++ lit ">"
          ++ (fix decode_list (l : list node) : str :=
                match l with
                | [] => []
                | c :: l' => decode_node (is_raw_text_tag nm) c ++ decode_list l'
                end) cs
          ++ lit "</" ++ nm ++ lit ">"
      end
  end.

Definition mini_decode (s : soup) : str :=
  concat (map (decode_node false) s).

Inductive token : Type :=
| TStart (name : str)
| TEnd (name : str)
| TText (s : str).

Inductive lex_mode : Type :=
| InText
| InTag
| InRaw (name : str).

Definition text_token (acc : str) : list token :=
  match acc with
  | [] => []
  | _ :: _ => [TText (rev acc)]
  end.

Definition tag_token (name : str) : token :=
  match name with
  | 0x2F :: name' => TEnd (ascii_lower name')
  | _ => TStart (ascii_lower name)
  end.

Definition mode_after (t : token) : lex_mode :=
  match t with
  | TStart name => if is_raw_text_tag name then InRaw name else InText
  | _ => InText
  end.

(** The lexer: [acc] holds, reversed, the characters of the piece being read. *)
Fixpoint lex (mode : lex_mode) (acc : str) (s : str) : list token :=
  match s with
  | [] =>
      match mode with
      | InTag => text_token (acc ++ [0x3C])
      | _ => text_token acc
      end
  | c :: s' =>
      match mode with
      | InText =>
          if c =? 0x3C then text_token acc ++ lex InTag [] s'
          else lex InText (c :: acc) s'
      | InTag =>
          if c =? 0x3E then
            let t := tag_token (rev acc) in t :: lex (mode_after t) [] s'
          else lex InTag (c :: acc) s'
      | InRaw name =>
          if (c =? 0x3C) && startswith (0x2F :: name ++ [0x3E]) (ascii_lower s')
          then text_token acc ++ lex InTag [] s'
          else lex (InRaw name) (c :: acc) s'
      end
  end.

(** An open tag of the tree builder: its name and, reversed, the children
    collected so far. *)
Definition frame : Type := str * list node.

Definition close_frame (f : frame) : node := Tag f.1 [] (rev f.2).

(** Add a finished node to the innermost open tag, or to the top level. *)
Definition add_child (n : node) (stack : list frame) (top : list node)
  : list frame * list node :=
  match stack with
  | [] => ([], n :: top)
  | f :: stack' => ((f.1, n :: f.2) :: stack', top)
  end.

(** Close open tags up to and including the innermost one called [name]. *)
Fixpoint pop_to (fuel : nat) (name : str) (stack : list frame) (top : list node)
  : list frame * list node :=
  match fuel, stack with
  | S fuel', f :: stack' =>
      let '(stack1, top1) := add_child (close_frame f) stack' top in
      if str_eqb f.1 name then (stack1, top1) else pop_to fuel' name stack1 top1
  | _, _ => (stack, top)
  end.

Fixpoint close_all (fuel : nat) (stack : list frame) (top : list node) : list node :=
  match fuel, stack with
  | S fuel', f :: stack' =>
      let '(stack1, top1) := add_child (close_frame f) stack' top in
      close_all fuel' stack1 top1
  | _, _ => rev top
  end.

Fixpoint build (toks : list token) (stack : list frame) (top : list node) : soup :=
  match toks with
  | [] => close_all (length stack) stack top
  | TText s :: toks' =>
      let '(stack1, top1) := add_child (NavigableString PlainString s) stack top in
      build toks' stack1 top1
  | TStart name :: toks' =>
      if bool_decide (name ∈ void_elements) then
        let '(stack1, top1) := add_child (Tag name [] []) stack top in
        build toks' stack1 top1
      else build toks' ((name, []) :: stack) top
  | TEnd name :: toks' =>
      if bool_decide (name ∈ map fst stack) then
        let '(stack1, top1) := pop_to (length stack) name stack top in
        build toks' stack1 top1
      else build toks' stack top
  end.

Definition mini_parse (content : str) : Exception + soup :=
  inr (build (lex InText [] content) [] []).

(** ** Example documents and flows *)

(** [<html><body>hi</body></html>] *)
Definition page_without_head : soup :=
  [Tag (lit "html") [] [Tag (lit "body") [] [NavigableString PlainString (lit "hi")]]].

(** [<html><head><title>t</title></head><body>hi</body></html>] *)
Definition page_with_head : soup :=
  [Tag (lit "html") []
     [Tag (lit "head") [] [Tag (lit "title") [] [NavigableString PlainString (lit "t")]];
      Tag (lit "body") [] [NavigableString PlainString (lit "hi")]]].

(** [<p>x</p>] *)
Definition fragment : soup :=
  [Tag (lit "p") [] [NavigableString PlainString (lit "x")]].

Definition example_flow (host media_type : string) (content : str) : HTTPFlow :=
  mkFlow (mkRequest (Some (lit host)) (lit "https://" ++ lit host ++ lit "/"))
         (mkResponse [(lit "Content-Type", lit media_type)] (BodyText content)).

Definition youtube_flow : HTTPFlow :=
  example_flow "m.youtube.com" "text/html; charset=utf-8"
    (lit "<html><body>hi</body></html>").

Definition google_flow : HTTPFlow :=
  example_flow "google.com" "text/html; charset=utf-8"
    (lit "<html><body>hi</body></html>").

Definition fragment_flow : HTTPFlow :=
  example_flow "www.youtube.com" "text/html" (lit "<p>x</p>").

(** A page whose text holds the lone surrogate U+D800: the body is the
    twelve bytes of [<head>] and the escape [\ud800], which the charset the
    response declares decodes to seven code points. *)
Definition escape_flow : HTTPFlow :=
  example_flow "m.youtube.com" "text/html; charset=raw_unicode_escape"
    (lit "<head>" ++ [0xD800]).

(** A page in ISO 8859-1 with one character outside ASCII. *)
Definition latin1_flow : HTTPFlow :=
  example_flow "m.youtube.com" "text/html; charset=iso-8859-1"
    (lit "<html><body>caf" ++ [0xE9] ++ lit "</body></html>").

(** The tree and the bytes the handler produces for [youtube_flow]. *)
Definition youtube_page_injected : soup :=
  default [] (inject page_without_head (injection_script YouTubeInterceptor_init)).

Definition youtube_page_bytes : list N :=
  match encode_utf8 (mini_decode youtube_page_injected) with
  | inr bytes => bytes
  | inl _ => []
  end.

(** A flow whose content cannot be decoded. *)
Definition undecodable_flow : HTTPFlow :=
  mkFlow (mkRequest (Some (lit "www.youtube.com")) (lit "https://www.youtube.com/"))
         (mkResponse [(lit "Content-Type", lit "text/html; charset=utf-8")]
            (BodyUndecodable (LibraryError (lit "invalid start byte")))).

(** A parser that rejects every input, to exercise the failure path. *)
Definition rejecting_parser (content : str) : Exception + soup :=
  inl (LibraryError (lit "cannot parse")).

(** ** The markup events of a tree

    A tree read in document order: the start tag of an element, its
    children, its end tag; a string is a single event.  This is the order in
    which a serializer writes the tree. *)

Inductive event : Type :=
| StartTag (name : str) (attrs : list (str * str))
| EndTag (name : str)
| Chars (cls : string_class) (s : str).

Fixpoint events (n : node) : list event :=
  match n with
  | NavigableString cls s => [Chars cls s]
  | Tag nm a cs => StartTag nm a :: flat_map events cs ++ [EndTag nm]
  end.

Definition soup_events (s : soup) : list event := flat_map events s.

(** The events that come before the start tag of the tag a path leads to. *)
Fixpoint events_before (p : path) (n : node) : list event :=
  match p with
  | [] => []
  | i :: p' =>
      match n with
      | NavigableString _ _ => []
      | Tag nm a cs =>
          StartTag nm a :: flat_map events (take i cs)
          ++ match cs !! i with
             | Some c => events_before p' c
             | None => []
             end
      end
  end.

Definition soup_events_before (p : path) (s : list node) : list event :=
  match p with
  | [] => []
  | i :: p' =>
      flat_map events (take i s)
      ++ match s !! i with
         | Some c => events_before p' c
         | None => []
         end
  end.

(** The events of the script tag. *)
Definition script_events (payload : str) : list event :=
  [StartTag (lit "script") []; Chars PlainString (strip payload); EndTag (lit "script")].

(** A Unicode scalar value: a code point that is not a surrogate. *)
Definition is_scalar (c : N) : Prop :=
  c < 0x110000 /\ ~ (0xD800 <= c <= 0xDFFF).

(** ** The markup the instance reads and writes

    The tree builder and the serializer of the instance, told in events:
    [emit] lists the events of the tree [build] makes of a list of tokens,
    and [render] is the text [mini_decode] writes for a list of events. *)














(** ** The launcher script [example_usage.py] *)

(** What the script does to the outside world: it prints a line, or it
    launches a program with its arguments. *)
Inductive Effect : Type :=
| Print (line : str)
| Launch (argv : list str).

(** The exceptions the script distinguishes. *)
Inductive BaseException : Type :=
| KeyboardInterrupt
| FileNotFoundError
| CalledProcessError (returncode : Z)
| OtherException (msg : str).

(** The machine the script runs on: the interpreter path [sys.executable],
    the path of the addon next to the script and whether that file exists,
    what launching a program and waiting for it gives (an exit status, or an
    exception), and how an exception prints. *)
Record Machine : Type := mkMachine {
  executable : str;
  addon_path : str;
  addon_exists : bool;
  spawn : list str -> BaseException + Z;
  exception_text : BaseException -> str }.

(** A run of a piece of the script: the effects in order, and a value or an
    exception. *)
Definition Cli (A : Type) : Type := list Effect * (BaseException + A).

Definition cli_pure {A} (a : A) : Cli A := ([], inr a).

Definition cli_bind {A B} (c : Cli A) (k : A -> Cli B) : Cli B :=
  match c with
  | (out, inl e) => (out, inl e)
  | (out, inr a) => let '(out', r) := k a in (out ++ out', r)
  end.

Notation "c '>>*' k" := (cli_bind c (fun _ => k))
  (at level 100, k at level 200, right associativity).

(** [print(line)] *)
Definition print (line : str) : Cli unit := ([Print line], inr tt).

(** [try: c  except ...: h e], where [h] returns [None] for the exceptions
    that no clause catches. *)
Definition cli_try {A} (c : Cli A) (h : BaseException -> option (Cli A)) : Cli A :=
  match c with
  | (out, inl e) =>
      match h e with
      | Some handler => let '(out', r) := handler in (out ++ out', r)
      | None => (out, inl e)
      end
  | (out, inr a) => (out, inr a)
  end.

(** [subprocess.run(argv)]: the exit status is returned, whatever it is. *)
Definition subprocess_run (m : Machine) (argv : list str) : Cli Z :=
  ([Launch argv], spawn m argv).

(** [subprocess.check_call(argv)]: a non-zero exit status raises. *)
Definition subprocess_check_call (m : Machine) (argv : list str) : Cli Z :=
  ([Launch argv],
   match spawn m argv with
   | inl e => inl e
   | inr code => if Z.eqb code 0 then inr code else inl (CalledProcessError code)
   end).

Definition pip_command (m : Machine) : list str :=
  [executable m; lit "-m"; lit "pip"; lit "install"; lit "-r"; lit "requirements.txt"].

(** [install_dependencies] *)
Definition install_dependencies (m : Machine) : Cli bool :=
  print (lit "Installing dependencies...") >>*
  cli_try
    (subprocess_check_call m (pip_command m) >>*
     print (lit "Dependencies installed successfully!") >>*
     cli_pure true)
    (fun e =>
       match e with
       | CalledProcessError _ =>
           Some (print (lit "Failed to install dependencies: " ++ exception_text m e) >>*
                 cli_pure false)
       | _ => None
       end).

Definition proxy_command (m : Machine) (tool : str) : list str :=
  [tool; lit "-s"; addon_path m; lit "--set"; lit "confdir=~/.mitmproxy"].

(** The [try] statement that [run_mitmdump] and [run_mitmweb] share, for the
    tool each of them launches. *)
Definition launch_proxy (m : Machine) (tool : str) : Cli unit :=
  cli_try
    (subprocess_run m (proxy_command m tool) >>* cli_pure tt)
    (fun e =>
       match e with
       | KeyboardInterrupt => Some (print ([0x0A] ++ lit "Proxy stopped."))
       | FileNotFoundError =>
           Some (print (lit "Error: " ++ tool
                        ++ lit " not found. Please install mitmproxy first:") >>*
                 print (lit "pip install mitmproxy"))
       | _ => None
       end).

(** [run_mitmdump] *)
Definition run_mitmdump (m : Machine) : Cli unit :=
  if negb (addon_exists m) then
    print (lit "Error: Addon file not found at " ++ addon_path m)
  else
    print (lit "Starting mitmdump with YouTube interceptor addon...") >>*
    print (lit "Addon path: " ++ addon_path m) >>*
    print ([0x0A] ++ lit "Configure your browser to use proxy: 127.0.0.1:8080") >>*
    print (lit "For HTTPS, visit http://mitm.it to install the certificate") >>*
    print ([0x0A] ++ lit "Press Ctrl+C to stop the proxy") >>*
    launch_proxy m (lit "mitmdump").

(** [run_mitmweb] *)
Definition run_mitmweb (m : Machine) : Cli unit :=
  if negb (addon_exists m) then
    print (lit "Error: Addon file not found at " ++ addon_path m)
  else
    print (lit "Starting mitmweb with YouTube interceptor addon...") >>*
    print (lit "Addon path: " ++ addon_path m) >>*
    print ([0x0A] ++ lit "Web interface will be available at: http://127.0.0.1:8081") >>*
    print (lit "Configure your browser to use proxy: 127.0.0.1:8080") >>*
    print (lit "For HTTPS, visit http://mitm.it to install the certificate") >>*
    print ([0x0A] ++ lit "Press Ctrl+C to stop the proxy") >>*
    launch_proxy m (lit "mitmweb").

(** The usage text of [main]. *)
Definition usage : list str :=
  [lit "YouTube Data Interceptor - Example Usage";
   [0x0A] ++ lit "Usage:";
   lit "  python example_usage.py install    - Install dependencies";
   lit "  python example_usage.py mitmdump   - Run with mitmdump (command line)";
   lit "  python example_usage.py mitmweb    - Run with mitmweb (web interface)";
   [0x0A] ++ lit "After starting the proxy:";
   lit "1. Configure your browser to use 127.0.0.1:8080 as HTTP/HTTPS proxy";
   lit "2. Visit http://mitm.it to install the certificate for HTTPS";
   lit "3. Navigate to any YouTube page";
   lit "4. Open browser console to see logged ytInitialData"].

(** The programs a run launched, in order. *)
Definition launched {A} (c : Cli A) : list (list str) :=
  omap (fun e => match e with Launch argv => Some argv | Print _ => None end) c.1.

(** The lines a run printed, in order. *)
Definition printed {A} (c : Cli A) : list str :=
  omap (fun e => match e with Print line => Some line | Launch _ => None end) c.1.

(** A machine for examples: whether the addon file is there, and what
    launching any program gives. *)
Definition example_machine (present : bool) (result : BaseException + Z) : Machine :=
  mkMachine (lit "/usr/bin/python3") (lit "/opt/addons/youtube_interceptor.py")
    present (fun _ => result) (fun _ => lit "error").

(** The tree the handler produces for [escape_flow]. *)
Definition surrogate_page_injected : soup :=
  default []
    (inject [Tag (lit "head") [] [NavigableString PlainString [0xD800]]]
       (injection_script YouTubeInterceptor_init)).

(** The tree the handler produces for [latin1_flow], and the bytes of its
    text in ISO 8859-1 and in UTF-8. *)
Definition latin1_page_injected : soup :=
  default []
    (inject
       [Tag (lit "html") []
          [Tag (lit "body") [] [NavigableString PlainString (lit "caf" ++ [0xE9])]]]
       (injection_script YouTubeInterceptor_init)).

Definition latin1_page_wire : list N :=
  match encode_latin1 (mini_decode latin1_page_injected) with
  | inr bytes => bytes
  | inl _ => []
  end.

Definition latin1_page_utf8 : list N :=
  match encode_utf8 (mini_decode latin1_page_injected) with
  | inr bytes => bytes
  | inl _ => []
  end.

(** ** The handler *)

Section Interceptor.

(** [s.lower()]: the Unicode lower-casing of the Python runtime. *)
Variable lower : str -> str.

(** [BeautifulSoup(content, 'html.parser')]: the parser, which returns a
    tree or raises. *)
Variable BeautifulSoup : str -> Exception + soup.

(** [str(soup)]: the serializer. *)
Variable soup_str : soup -> str.

(** Field names are compared without regard to case. *)
Definition key_matches (k : str) (field : str * str) : bool :=
  str_eqb (lower field.1) (lower k).

(** Modelled from the spec: lookup in the header mapping,
    [headers.get(k, default)]. *)
Definition headers_get (h : Headers) (k default : str) : str :=
  match List.find (key_matches k) h with
  | Some field => field.2
  | None => default
  end.

(** Modelled from the spec: assignment in the header mapping.  After
    [headers[k] = v] the first field called [k] has the value [v], further
    fields called [k] are gone, and a field is appended when there was
    none. *)
Fixpoint set_fields (k v : str) (seen : bool) (h : Headers) : Headers :=
  match h with
  | [] => if seen then [] else [(k, v)]
  | field :: h' =>
      if key_matches k field then
        if seen then set_fields k v true h'
        else (field.1, v) :: set_fields k v true h'
      else field :: set_fields k v seen h'
  end.

(** [flow.response.headers[k] = v] *)
Definition set_header (k v : str) : Py unit :=
  fun w =>
    let f := w_flow w in
    let r := flow_response f in
    (Normal tt,
     mkWorld (mkFlow (request f) (mkResponse (set_fields k v false (headers r)) (body r)))
             (w_log w)).

(** [YouTubeInterceptor.is_youtube_domain] *)
Definition is_youtube_domain (self : YouTubeInterceptor) (host : option str) : bool :=
  match host with
  | None => false
  | Some [] => false
  | Some (c :: h) =>
      let host := lower (c :: h) in
      existsb (fun domain => contains domain host) (youtube_domains self)
  end.

(** [YouTubeInterceptor.is_html_response] *)
Definition is_html_response (self : YouTubeInterceptor) (response : Response) : bool :=
  let content_type := lower (headers_get (headers response) (lit "content-type") []) in
  contains (lit "text/html") content_type.

(** The body of the [try] block of [YouTubeInterceptor.response], over the
    [set_text] of the response. *)
Definition response_try (set_text : str -> Py unit) (self : YouTubeInterceptor)
  : Py unit :=
  let* flow := get_flow in
  return_if (negb (is_youtube_domain self (pretty_host (request flow)))) ;;;
  return_if (negb (is_html_response self (flow_response flow))) ;;;
  let* content := get_text in
  return_if (falsy content) ;;;
  let content := default [] content in
  logger INFO (Intercepting (pretty_url (request flow))) ;;;
  let* soup :=
    try_except (call (BeautifulSoup content))
      (fun e => logger ERROR (FailedToParse e) ;;; return_) in
  let* soup :=
    match inject soup (injection_script self) with
    | Some soup' => pure soup'
    | None => logger WARNING NoHeadOrHtml ;;; return_
    end in
  let modified_content := soup_str soup in
  set_text modified_content ;;;
  let* encoded := call (encode_utf8 modified_content) in
  set_header (lit "content-length") (str_of_int (len encoded)) ;;;
  logger INFO (Injected (pretty_url (request flow))).

(** [YouTubeInterceptor.response]: the [try] block under its catch-all
    handler, which logs the exception. *)
Definition response_stmt (set_text : str -> Py unit) (self : YouTubeInterceptor)
  : Py unit :=
  try_except (response_try set_text self)
    (fun e =>
       let* flow := get_flow in
       logger ERROR (ErrorProcessing (pretty_url (request flow)) e)).

(** A call of the handler on a flow, starting from an empty log, over the
    engine [text_only]. *)
Definition response (self : YouTubeInterceptor) (flow : HTTPFlow)
  : Completion unit * World :=
  response_stmt set_text self (mkWorld flow []).

(** The flow the proxy delivers after the call. *)
Definition delivered (self : YouTubeInterceptor) (flow : HTTPFlow) : HTTPFlow :=
  w_flow (response self flow).2.

(** The records the call logs. *)
Definition logged (self : YouTubeInterceptor) (flow : HTTPFlow) : list LogRecord :=
  w_log (response self flow).2.


(** A flow with its body text replaced. *)
Definition with_body (flow : HTTPFlow) (text : str) : HTTPFlow :=
  mkFlow (request flow) (mkResponse (headers (flow_response flow)) (BodyText text)).

(** A flow with its size field assigned the numeral of [n]. *)
Definition with_length (flow : HTTPFlow) (n : N) : HTTPFlow :=
  mkFlow (request flow)
    (mkResponse (set_fields (lit "content-length") (str_of_int n) false
                   (headers (flow_response flow)))
                (body (flow_response flow))).

(** The tree the handler serializes into the body, when the call gets that
    far: the host and the media type qualify, the body has text, the parser
    returns a tree and the tree has a head or an html tag. *)
Definition mutated_tree (self : YouTubeInterceptor) (flow : HTTPFlow) : option soup :=
  if is_youtube_domain self (pretty_host (request flow))
     && is_html_response self (flow_response flow)
  then
    match body (flow_response flow) with
    | BodyText (c :: content) =>
        match BeautifulSoup (c :: content) with
        | inr D => inject D (injection_script self)
        | inl _ => None
        end
    | _ => None
    end
  else None.

(** The exits of the handler that come before the body is replaced. *)
Inductive passes_through (self : YouTubeInterceptor) (flow : HTTPFlow) : Prop :=
| host_not_eligible :
    is_youtube_domain self (pretty_host (request flow)) = false ->
    passes_through self flow
| content_not_eligible :
    is_html_response self (flow_response flow) = false ->
    passes_through self flow
| body_absent :
    body (flow_response flow) = BodyNone ->
    passes_through self flow
| body_empty :
    body (flow_response flow) = BodyText [] ->
    passes_through self flow
| text_fault e :
    body (flow_response flow) = BodyUndecodable e ->
    passes_through self flow
| parse_failure content e :
    body (flow_response flow) = BodyText content ->
    BeautifulSoup content = inl e ->
    passes_through self flow
| missing_skeleton content D :
    body (flow_response flow) = BodyText content ->
    BeautifulSoup content = inr D ->
    inject D (injection_script self) = None ->
    passes_through self flow.

(** The single-pattern check: the host is non-empty and, lower-cased,
    contains [youtube.com]. *)
Definition single_pattern_check (host : option str) : bool :=
  match host with
  | None => false
  | Some h => negb (bool_decide (h = [])) && contains (lit "youtube.com") (lower h)
  end.

(** [t] is [s] trimmed: what is cut off at both ends of [s] is whitespace,
    and [t] neither starts nor ends with whitespace. *)
Definition trimmed (s t : str) : Prop :=
  exists l r, s = l ++ t ++ r /\
    forallb isspace l = true /\ forallb isspace r = true /\
    match t with [] => True | c :: _ => isspace c = false end /\
    match rev t with [] => True | c :: _ => isspace c = false end.

(** ** The entry point of the launcher script *)

(** The command [main] reads from [sys.argv], lower-cased, if there is one. *)
Definition command_of (argv : list str) : option str :=
  match argv with
  | _ :: arg :: _ => Some (lower arg)
  | _ => None
  end.

(** [main], given [sys.argv]. *)
Definition main (m : Machine) (argv : list str) : Cli unit :=
  match argv with
  | _ :: arg :: _ =>
      let command := lower arg in
      if str_eqb command (lit "install") then
        install_dependencies m >>* cli_pure tt
      else if str_eqb command (lit "mitmdump") then run_mitmdump m
      else if str_eqb command (lit "mitmweb") then run_mitmweb m
      else
        print (lit "Unknown command: " ++ command) >>*
        print (lit "Use 'install', 'mitmdump', or 'mitmweb'")
  | _ => (map Print usage, inr tt)
  end.

(** ** The handler over an engine *)

(** An instance of the engine's [set_text] for examples.  It does what the
    proxy engine the addon is written for does on a response whose charset
    has the codec [encode], with a text that codec can encode: the text
    becomes the body, encoded for the wire in that charset, and the size
    field is assigned the number of bytes.  What the engine does with a
    text the codec cannot encode is [otherwise]. *)
Definition set_text_in (encode : str -> Exception + list N) (otherwise : SetText)
  : SetText :=
  fun text r =>
    match encode text with
    | inr wire =>
        (mkResponse
           (set_fields (lit "content-length") (str_of_int (len wire)) false (headers r))
           (BodyText text),
         None)
    | inl _ => otherwise text r
    end.

(** The [set_text] of the proxy engine, which is not part of the sources:
    a parameter of the handler. *)
Variable engine_set_text : SetText.

(** A call of the handler under the engine. *)
Definition response_engine (self : YouTubeInterceptor) (flow : HTTPFlow)
  : Completion unit * World :=
  response_stmt (set_text_by engine_set_text) self (mkWorld flow []).

Definition delivered_engine (self : YouTubeInterceptor) (flow : HTTPFlow) : HTTPFlow :=
  w_flow (response_engine self flow).2.

Definition logged_engine (self : YouTubeInterceptor) (flow : HTTPFlow)
  : list LogRecord :=
  w_log (response_engine self flow).2.

(** The records a call logs, read off the branches of the handler. *)
Definition expected_log (self : YouTubeInterceptor) (flow : HTTPFlow) : list LogRecord :=
  let url := pretty_url (request flow) in
  if is_youtube_domain self (pretty_host (request flow))
     && is_html_response self (flow_response flow)
  then
    match body (flow_response flow) with
    | BodyNone => []
    | BodyText [] => []
    | BodyUndecodable e => [(ERROR, ErrorProcessing url e)]
    | BodyText (c :: content) =>
        (INFO, Intercepting url)
        :: match BeautifulSoup (c :: content) with
           | inl e => [(ERROR, FailedToParse e)]
           | inr D =>
               match inject D (injection_script self) with
               | None => [(WARNING, NoHeadOrHtml)]
               | Some D' =>
                   match encode_utf8 (soup_str D') with
                   | inr _ => [(INFO, Injected url)]
                   | inl e => [(ERROR, ErrorProcessing url e)]
                   end
               end
           end
    end
  else [].

(** ** Properties of the string operations *)

Lemma str_eqb_eq (a b : str) : str_eqb a b = true <-> a = b.
Proof. unfold str_eqb. apply bool_decide_eq_true. Qed.

Lemma str_eqb_refl (a : str) : str_eqb a a = true.
Proof. now apply str_eqb_eq. Qed.

Lemma startswith_spec (p s : str) :
  startswith p s = true <-> exists r, s = p ++ r.
Proof.
  revert s. induction p as [|a p IH]; intros s; simpl.
  - split; [intros _; now exists s | reflexivity].
  - destruct s as [|b s].
    + split; [discriminate | intros [r Hr]; discriminate].
    + rewrite andb_true_iff, N.eqb_eq, IH. split.
      * intros [-> [r ->]]. now exists r.
      * intros [r Hr]. injection Hr as -> ->. split; [reflexivity | now exists r].
Qed.

Lemma contains_spec (p s : str) :
  contains p s = true <-> substring p s.
Proof.
  unfold substring. induction s as [|b s IH].
  - simpl. rewrite orb_false_r, startswith_spec. split.
    + intros [r Hr]. now exists [], r.
    + intros [l [r Hr]]. destruct l; [now exists r | discriminate].
  - cbn [contains]. rewrite orb_true_iff, startswith_spec, IH. split.
    + intros [[r Hr] | [l [r Hr]]].
      * now exists [], r.
      * exists (b :: l), r. now rewrite Hr.
    + intros [[|c l] [r Hr]].
      * left. now exists r.
      * right. injection Hr as -> ->. now exists l, r.
Qed.

Lemma substring_trans (a b c : str) :
  substring a b -> substring b c -> substring a c.
Proof.
  intros [l1 [r1 ->]] [l2 [r2 ->]].
  exists (l2 ++ l1), (r1 ++ r2). now rewrite <- !app_assoc.
Qed.

Lemma existsb_contains (ds : list str) (h : str) :
  existsb (fun d => contains d h) ds = true <->
  exists d, In d ds /\ substring d h.
Proof.
  rewrite existsb_exists. split; intros [d [Hin Hd]]; exists d;
    (split; [exact Hin | now apply contains_spec]).
Qed.

(** [lstrip] removes a run of whitespace and stops at the first other
    character. *)
Lemma lstrip_spec (s : str) :
  exists l, s = l ++ lstrip s /\ forallb isspace l = true /\
            match lstrip s with [] => True | c :: _ => isspace c = false end.
Proof.
  induction s as [|c s [l [Hs [Hl Hh]]]]; simpl.
  - now exists [].
  - destruct (isspace c) eqn:Hc.
    + exists (c :: l). simpl. rewrite Hc, Hl. repeat split; [congruence | exact Hh].
    + exists []. now repeat split.
Qed.

(** [strip] is the middle of the string: what is cut off on both sides is
    whitespace, and what remains neither starts nor ends with whitespace. *)
Lemma strip_spec (s : str) : trimmed s (strip s).
Proof.
  unfold trimmed, strip, rstrip.
  destruct (lstrip_spec s) as [l [Hs [Hl Hh]]].
  destruct (lstrip_spec (rev (lstrip s))) as [r [Hr [Hrs Hrh]]].
  exists l, (rev r). rewrite rev_involutive.
  assert (Hm : lstrip s = rev (lstrip (rev (lstrip s))) ++ rev r).
  { rewrite <- rev_app_distr, <- Hr. now rewrite rev_involutive. }
  repeat split.
  - now rewrite <- Hm.
  - exact Hl.
  - rewrite forallb_forall in *. intros x Hx. apply Hrs. now apply in_rev.
  - destruct (lstrip (rev (lstrip s))) as [|c m] eqn:Hm'; [exact I|].
    rewrite Hm in Hh. simpl in *.
    destruct (rev m) as [|d m']; [exact Hrh | exact Hh].
  - exact Hrh.
Qed.

(** ** [str(n)] denotes [n] *)

Lemma int_of_digits_acc (d : Decimal.uint) (acc : positive) :
  int_of_digits (Npos acc) (digits_of_uint d) = Some (Npos (Pos.of_uint_acc d acc)).
Proof.
  revert acc. induction d; intros acc; cbn [digits_of_uint int_of_digits Pos.of_uint_acc];
    [reflexivity | ..];
    match goal with
    | |- context [int_of_digits ?a _] =>
        match goal with
        | |- context [Pos.of_uint_acc _ ?b] =>
            replace a with (Npos b) by (cbn; lia)
        end
    end; cbn [N.leb N.compare Pos.compare Pos.compare_cont andb]; apply IHd.
Qed.

Lemma int_of_digits_of_uint (d : Decimal.uint) :
  int_of_digits 0 (digits_of_uint d) = Some (Pos.of_uint d).
Proof.
  induction d; cbn [digits_of_uint int_of_digits Pos.of_uint];
    [reflexivity | exact IHd | ..];
    cbn [N.leb N.compare Pos.compare Pos.compare_cont andb N.mul N.add N.sub];
    apply int_of_digits_acc.
Qed.

Lemma str_of_int_nonempty (n : N) : str_of_int n <> [].
Proof.
  unfold str_of_int. destruct n as [|p]; [discriminate|].
  cbn [N.to_uint]. pose proof (DecimalPos.Unsigned.to_uint_nonnil p) as H.
  destruct (Pos.to_uint p); [congruence | discriminate ..].
Qed.

Lemma int_of_str_of_int (n : N) : int_of_str (str_of_int n) = Some n.
Proof.
  unfold int_of_str. pose proof (str_of_int_nonempty n) as Hne.
  destruct (str_of_int n) eqn:E; [congruence|]. rewrite <- E.
  unfold str_of_int. rewrite int_of_digits_of_uint.
  f_equal. apply DecimalN.Unsigned.of_to.
Qed.

(** ** Properties of the tree operations *)

(** Induction over a node with the hypothesis for all its children. *)
Lemma node_ind_children (P : node -> Prop) :
  (forall cls s, P (NavigableString cls s)) ->
  (forall nm a cs, Forall P cs -> P (Tag nm a cs)) ->
  forall n, P n.
Proof.
  intros Hs Ht. fix IH 1. intros [cls s | nm a cs].
  - apply Hs.
  - apply Ht. induction cs as [|c cs IHcs]; constructor; [apply IH | exact IHcs].
Qed.

Lemma find_node_tag (name nm : str) a cs :
  find_node name (Tag nm a cs) =
  if str_eqb nm name then Some [] else find_in name cs 0.
Proof.
  cbn [find_node]. destruct (str_eqb nm name); [reflexivity|].
  generalize 0%nat. induction cs as [|c cs IH]; intros i; [reflexivity|].
  cbn [find_in]. destruct (find_node name c); [reflexivity | apply IH].
Qed.

(** A search among siblings succeeds at the first sibling that holds a
    match: the siblings before it hold none. *)
Lemma find_in_Some (name : str) (l : list node) (i : nat) (p : path) :
  find_in name l i = Some p <->
  exists l1 c l2 p', l = l1 ++ c :: l2 /\ p = (i + length l1)%nat :: p' /\
    Forall (fun n => find_node name n = None) l1 /\ find_node name c = Some p'.
Proof.
  revert i p. induction l as [|c l IH]; intros i p; cbn [find_in].
  - split; [discriminate | intros (l1 & c & l2 & p' & Hl & _)].
    destruct l1; discriminate.
  - destruct (find_node name c) as [q|] eqn:Hc.
    + split.
      * intros [= <-]. exists [], c, l, q. simpl.
        rewrite Nat.add_0_r. repeat split; [constructor | exact Hc].
      * intros (l1 & c' & l2 & p' & Hl & -> & Hall & Hc').
        destruct l1 as [|c1 l1]; simpl in Hl; injection Hl as <- ->.
        -- simpl. rewrite Nat.add_0_r. rewrite Hc in Hc'. now injection Hc' as ->.
        -- inversion Hall as [|? ? Hnone]. rewrite Hc in Hnone. discriminate.
    + rewrite IH. split.
      * intros (l1 & c' & l2 & p' & -> & -> & Hall & Hc').
        exists (c :: l1), c', l2, p'. simpl.
        repeat split; [f_equal; lia | now constructor | exact Hc'].
      * intros (l1 & c' & l2 & p' & Hl & -> & Hall & Hc').
        destruct l1 as [|c1 l1]; simpl in Hl; injection Hl as <- ->.
        -- congruence.
        -- exists l1, c', l2, p'. inversion Hall; subst. simpl.
           repeat split; [f_equal; lia | assumption | exact Hc'].
Qed.

Lemma find_in_None (name : str) (l : list node) (i : nat) :
  find_in name l i = None <-> Forall (fun n => find_node name n = None) l.
Proof.
  revert i. induction l as [|c l IH]; intros i; cbn [find_in].
  - split; [constructor | reflexivity].
  - destruct (find_node name c) eqn:Hc.
    + split; [discriminate | intros H; inversion H; congruence].
    + rewrite IH. split; [now constructor | intros H; now inversion H].
Qed.

Lemma lookup_middle (l1 l2 : list node) (c : node) :
  (l1 ++ c :: l2) !! length l1 = Some c.
Proof. now rewrite list_lookup_middle. Qed.

Lemma alter_middle (f : node -> node) (l1 l2 : list node) (c : node) :
  alter f (length l1) (l1 ++ c :: l2) = l1 ++ f c :: l2.
Proof.
  induction l1 as [|x l1 IH]; [reflexivity|]. simpl. f_equal. exact IH.
Qed.

(** The path a search returns leads to a tag with the name searched for. *)
Lemma find_node_at (name : str) (n : node) :
  forall p, find_node name n = Some p ->
  exists a cs, node_at p n = Some (Tag name a cs).
Proof.
  induction n as [cls s | nm a cs IH] using node_ind_children; intros p.
  - discriminate.
  - rewrite find_node_tag. destruct (str_eqb nm name) eqn:Hnm.
    + intros [= <-]. apply str_eqb_eq in Hnm as ->. now exists a, cs.
    + intros (l1 & c & l2 & p' & -> & -> & _ & Hc)%find_in_Some.
      rewrite Forall_forall in IH.
      destruct (IH c) with (p := p') as (a' & cs' & Hat); [ | exact Hc | ].
      * apply list_elem_of_In, in_elt.
      * exists a', cs'. cbn [node_at node_contents Nat.add].
        now rewrite lookup_middle.
Qed.

(** Inserting below the tag that a path leads to changes that tag by the
    rest of the path. *)
Lemma node_at_insert (p r : path) (position : nat) (new : node) :
  forall n m, node_at p n = Some m ->
  node_at p (node_insert (p ++ r) position new n)
  = Some (node_insert r position new m).
Proof.
  induction p as [|i p IH]; intros n m.
  - intros [= ->]. reflexivity.
  - cbn [node_at]. destruct n as [cls s | nm a cs]; cbn [node_contents].
    + rewrite lookup_nil. discriminate.
    + destruct (cs !! i) as [c|] eqn:Hi; [|discriminate]. intros Hm.
      cbn [app node_insert node_contents]. rewrite list_lookup_alter_eq, Hi.
      cbn. now apply IH.
Qed.

(** A search that succeeded returns the same tag after an insertion into
    that tag. *)
Lemma find_node_insert (name : str) (position : nat) (new : node) (n : node) :
  forall p, find_node name n = Some p ->
  find_node name (node_insert p position new n) = Some p.
Proof.
  induction n as [cls s | nm a cs IH] using node_ind_children; intros p.
  - discriminate.
  - rewrite find_node_tag. destruct (str_eqb nm name) eqn:Hnm.
    + intros [= <-]. cbn [node_insert]. now rewrite find_node_tag, Hnm.
    + intros (l1 & c & l2 & p' & -> & -> & Hall & Hc)%find_in_Some.
      cbn [node_insert Nat.add]. rewrite alter_middle, find_node_tag, Hnm.
      apply find_in_Some. exists l1, (node_insert p' position new c), l2, p'.
      repeat split; [exact Hall|].
      rewrite Forall_forall in IH. apply IH; [|exact Hc].
      apply list_elem_of_In, in_elt.
Qed.

Lemma node_at_app (p r : path) :
  forall n, node_at (p ++ r) n = node_at p n ≫= node_at r.
Proof.
  induction p as [|i p IH]; intros n; [reflexivity|].
  cbn [app node_at]. destruct (node_contents n !! i); [apply IH | reflexivity].
Qed.

(** When no tag is called [name], a tag of that name inserted as the first
    child of the first [anchor] tag is what a search for [name] then finds. *)
Lemma find_node_new_child (name anchor : str) (new : node) (n : node) :
  find_node name new = Some [] ->
  forall q, find_node name n = None -> find_node anchor n = Some q ->
  find_node name (node_insert q 0 new n) = Some (q ++ [0%nat]).
Proof.
  intros Hnew.
  induction n as [cls s | nm a cs IH] using node_ind_children; intros q.
  - discriminate.
  - rewrite !find_node_tag. destruct (str_eqb nm name) eqn:Hnm; [discriminate|].
    intros Hnone%find_in_None. destruct (str_eqb nm anchor).
    + intros [= <-]. change (node_insert [] 0 new (Tag nm a cs)) with (Tag nm a (new :: cs)).
      rewrite find_node_tag, Hnm. cbn [find_in]. now rewrite Hnew.
    + intros (l1 & c & l2 & q' & -> & -> & _ & Hc)%find_in_Some.
      cbn [node_insert Nat.add app]. rewrite alter_middle, find_node_tag, Hnm.
      apply Forall_app in Hnone as [Hl1 Hcl2]. inversion Hcl2 as [|? ? Hcn _]; subst.
      apply find_in_Some. exists l1, (node_insert q' 0 new c), l2, (q' ++ [0%nat]).
      repeat split; [exact Hl1|].
      rewrite Forall_forall in IH. apply IH; [ | exact Hcn | exact Hc].
      apply list_elem_of_In, in_elt.
Qed.

(** *** The same facts for a soup *)

Lemma document_insert (p : path) (position : nat) (new : node) (s : soup) :
  document (tag_insert p position new s) = node_insert p position new (document s).
Proof. destruct p; reflexivity. Qed.

Lemma find_document (name : str) (s : soup) :
  name <> lit "[document]" -> find_node name (document s) = soup_find name s.
Proof.
  intros Hne. unfold document. rewrite find_node_tag.
  destruct (str_eqb (lit "[document]") name) eqn:E; [|reflexivity].
  apply str_eqb_eq in E. congruence.
Qed.

Lemma soup_find_at (name : str) (s : soup) (p : path) :
  name <> lit "[document]" -> soup_find name s = Some p ->
  exists a cs, get_at p s = Some (Tag name a cs).
Proof.
  intros Hne Hp. rewrite <- find_document in Hp by exact Hne.
  now apply find_node_at.
Qed.

Lemma get_at_insert (p r : path) (position : nat) (new : node) (s : soup) (m : node) :
  get_at p s = Some m ->
  get_at p (tag_insert (p ++ r) position new s) = Some (node_insert r position new m).
Proof.
  unfold get_at. rewrite document_insert. apply node_at_insert.
Qed.

Lemma get_at_insert_here (p : path) (new : node) (s : soup) nm a cs :
  get_at p s = Some (Tag nm a cs) ->
  get_at p (tag_insert p 0 new s) = Some (Tag nm a (new :: cs)).
Proof.
  intros H. rewrite <- (app_nil_r p) at 2.
  now rewrite (get_at_insert p [] 0 new s _ H).
Qed.

Lemma soup_find_insert (name : str) (position : nat) (new : node) (s : soup) (p : path) :
  name <> lit "[document]" -> soup_find name s = Some p ->
  soup_find name (tag_insert p position new s) = Some p.
Proof.
  intros Hne Hp. rewrite <- find_document in * by exact Hne.
  rewrite document_insert. now apply find_node_insert.
Qed.

Lemma soup_find_new_child (name anchor : str) (s : soup) (q : path) :
  name <> lit "[document]" -> anchor <> lit "[document]" ->
  soup_find name s = None -> soup_find anchor s = Some q ->
  soup_find name (tag_insert q 0 (new_tag name) s) = Some (q ++ [0%nat]).
Proof.
  intros Hn Ha Hnone Hq. rewrite <- find_document in * by assumption.
  rewrite document_insert. apply find_node_new_child with (anchor := anchor); try assumption.
  unfold new_tag. now rewrite find_node_tag, str_eqb_refl.
Qed.

Lemma head_not_document : lit "head" <> lit "[document]".
Proof. discriminate. Qed.

Lemma html_not_document : lit "html" <> lit "[document]".
Proof. discriminate. Qed.

(** The script tag holds the trimmed payload as its only string. *)
Lemma script_tag_eq (P : str) :
  script_tag P = Tag (lit "script") [] [NavigableString PlainString (strip P)].
Proof. reflexivity. Qed.

(** What a successful injection leaves behind: the first head tag of the
    result has the script as its first child; that head is either the head
    the document had, or a new, otherwise empty head placed first in the
    html tag of a document that had no head. *)
Lemma inject_Some (D D' : soup) (P : str) :
  inject D P = Some D' ->
  exists head a cs,
    soup_find (lit "head") D' = Some head /\
    get_at head D' = Some (Tag (lit "head") a (script_tag P :: cs)) /\
    ((soup_find (lit "head") D = Some head /\
      get_at head D = Some (Tag (lit "head") a cs))
     \/
     (soup_find (lit "head") D = None /\ a = [] /\ cs = [] /\
      exists html_tag a' cs',
        soup_find (lit "html") D = Some html_tag /\
        head = html_tag ++ [0%nat] /\
        get_at html_tag D = Some (Tag (lit "html") a' cs') /\
        get_at html_tag D'
        = Some (Tag (lit "html") a' (Tag (lit "head") [] [script_tag P] :: cs')))).
Proof.
  unfold inject. destruct (soup_find (lit "head") D) as [head|] eqn:Hhead.
  - intros HD. assert (D' = tag_insert head 0 (script_tag P) D) as -> by congruence.
    clear HD.
    destruct (soup_find_at _ _ _ head_not_document Hhead) as (a & cs & Hat).
    exists head, a, cs. split; [|split].
    + now apply soup_find_insert; [apply head_not_document|].
    + now apply get_at_insert_here.
    + left. now split.
  - destruct (soup_find (lit "html") D) as [html_tag|] eqn:Hhtml; [|discriminate].
    cbv zeta. set (s1 := tag_insert html_tag 0 (new_tag (lit "head")) D).
    intros HD.
    assert (D' = tag_insert (html_tag ++ [0%nat]) 0 (script_tag P) s1) as -> by congruence.
    clear HD.
    destruct (soup_find_at _ _ _ html_not_document Hhtml) as (a' & cs' & Hat).
    pose proof (soup_find_new_child _ _ _ _ head_not_document html_not_document
                  Hhead Hhtml) as Hfind1.
    pose proof (get_at_insert_here _ (new_tag (lit "head")) _ _ _ _ Hat) as Hat1.
    fold s1 in Hfind1, Hat1.
    pose proof (get_at_insert html_tag [0%nat] 0 (script_tag P) s1 _ Hat1) as Hat2.
    exists (html_tag ++ [0%nat]), [], []. split; [|split].
    + now apply soup_find_insert; [apply head_not_document|].
    + unfold get_at in *. rewrite node_at_app, Hat2. reflexivity.
    + right. repeat split. exists html_tag, a', cs'. repeat split; try assumption.
Qed.

(** ** Properties of the header mapping *)

Lemma key_matches_refl (k v : str) : key_matches k (k, v) = true.
Proof. apply str_eqb_refl. Qed.

(** After an assignment the field reads back as assigned. *)
Lemma headers_get_set (h : Headers) (k v d : str) :
  headers_get (set_fields k v false h) k d = v.
Proof.
  unfold headers_get. induction h as [|field h IH]; cbn [set_fields List.find].
  - now rewrite key_matches_refl.
  - destruct (key_matches k field) eqn:Hf; cbn [List.find].
    + unfold key_matches in *. cbn [fst]. now rewrite Hf.
    + rewrite Hf. exact IH.
Qed.

(** ** The runs of the handler *)

Ltac run_handler :=
  cbv beta iota zeta delta
    [response response_engine response_stmt response_try try_except bind
     get_flow get_text return_if return_ call raise pure logger set_text
     set_text_by text_only fst snd set_header
     w_flow w_log negb andb falsy default from_option id].

Ltac handler_done :=
  intros _; eexists _, _; split; [reflexivity | discriminate].

(** A call that replaces nothing ends without an exception and leaves the
    flow as it was. *)
Lemma response_unmutated (self : YouTubeInterceptor) (flow : HTTPFlow) :
  mutated_tree self flow = None ->
  exists c l, response self flow = (c, mkWorld flow l) /\
              forall e, c <> Raised e.
Proof.
  unfold mutated_tree. run_handler.
  destruct (is_youtube_domain self (pretty_host (request flow)));
    run_handler; [|handler_done].
  destruct (is_html_response self (flow_response flow));
    run_handler; [|handler_done].
  destruct (body (flow_response flow)) as [[|c content] | | e];
    run_handler; try handler_done.
  destruct (BeautifulSoup (c :: content)) as [e | D];
    run_handler; [handler_done|].
  destruct (inject D (injection_script self));
    run_handler; [discriminate | handler_done].
Qed.

(** A call that gets as far as replacing the body: the size header follows
    when the new text can be encoded, and otherwise the exception is logged
    with the new body in place. *)
Lemma response_mutated (self : YouTubeInterceptor) (flow : HTTPFlow) (D' : soup) :
  mutated_tree self flow = Some D' ->
  let url := pretty_url (request flow) in
  let flow1 := with_body flow (soup_str D') in
  response self flow =
  match encode_utf8 (soup_str D') with
  | inr bytes =>
      (Normal tt,
       mkWorld (with_length flow1 (len bytes))
               [(INFO, Intercepting url); (INFO, Injected url)])
  | inl e =>
      (Normal tt,
       mkWorld flow1 [(INFO, Intercepting url); (ERROR, ErrorProcessing url e)])
  end.
Proof.
  unfold mutated_tree, with_body, with_length. run_handler.
  destruct (is_youtube_domain self (pretty_host (request flow)));
    run_handler; [|discriminate].
  destruct (is_html_response self (flow_response flow));
    run_handler; [|discriminate].
  destruct (body (flow_response flow)) as [[|c content] | | e];
    run_handler; try discriminate.
  destruct (BeautifulSoup (c :: content)) as [e | D];
    run_handler; [discriminate|].
  destruct (inject D (injection_script self)) as [D1|];
    run_handler; [|discriminate].
  intros HD. assert (D1 = D') as -> by congruence. clear HD.
  destruct (encode_utf8 (soup_str D')); reflexivity.
Qed.

Lemma passes_through_unmutated (self : YouTubeInterceptor) (flow : HTTPFlow) :
  passes_through self flow -> mutated_tree self flow = None.
Proof.
  unfold mutated_tree. intros [H | H | H | H | e H | content e H He | content D H HD Hi];
    try (rewrite H; try reflexivity; now rewrite andb_false_r);
    destruct (_ && _); try reflexivity; rewrite H; try reflexivity;
    destruct content; try reflexivity.
  - now rewrite He.
  - now rewrite HD.
Qed.

(** Every call takes one of the exits of [passes_through] or reaches the
    replacement of the body. *)
Lemma unmutated_passes_through (self : YouTubeInterceptor) (flow : HTTPFlow) :
  mutated_tree self flow = None -> passes_through self flow.
Proof.
  unfold mutated_tree.
  destruct (is_youtube_domain _ _) eqn:Hy; [|intros _; now apply host_not_eligible].
  destruct (is_html_response _ _) eqn:Hh; [|intros _; now apply content_not_eligible].
  cbn [andb].
  destruct (body (flow_response flow)) as [[|c content]| |e] eqn:Hb.
  - intros _. now apply body_empty.
  - destruct (BeautifulSoup (c :: content)) as [e|D] eqn:HD.
    + intros _. now apply parse_failure with (content := c :: content) (e := e).
    + intros Hi. now apply missing_skeleton with (content := c :: content) (D := D).
  - intros _. now apply body_absent.
  - intros _. now apply text_fault with (e := e).
Qed.

Lemma mutated_tree_Some (self : YouTubeInterceptor) (flow : HTTPFlow) (D' : soup) :
  mutated_tree self flow = Some D' <->
  is_youtube_domain self (pretty_host (request flow)) = true /\
  is_html_response self (flow_response flow) = true /\
  exists content D,
    body (flow_response flow) = BodyText content /\ content <> [] /\
    BeautifulSoup content = inr D /\ inject D (injection_script self) = Some D'.
Proof.
  unfold mutated_tree. split.
  - destruct (is_youtube_domain _ _); [|discriminate].
    destruct (is_html_response _ _); [|discriminate]. cbn [andb].
    destruct (body (flow_response flow)) as [[|c content]| |e]; try discriminate.
    destruct (BeautifulSoup (c :: content)) as [e|D] eqn:HD; [discriminate|].
    intros Hi. repeat split. now exists (c :: content), D.
  - intros (-> & -> & content & D & -> & Hne & HD & Hi). cbn [andb].
    destruct content; [congruence|]. now rewrite HD.
Qed.

(** Under any engine, a call that does not get as far as replacing the body
    runs as it does under [set_text]. *)
Lemma response_engine_unmutated (self : YouTubeInterceptor) (flow : HTTPFlow) :
  mutated_tree self flow = None ->
  response_engine self flow = response self flow.
Proof.
  unfold mutated_tree. run_handler.
  destruct (is_youtube_domain self (pretty_host (request flow)));
    run_handler; [|reflexivity].
  destruct (is_html_response self (flow_response flow));
    run_handler; [|reflexivity].
  destruct (body (flow_response flow)) as [[|c content] | | e];
    run_handler; try reflexivity.
  destruct (BeautifulSoup (c :: content)) as [e | D];
    run_handler; [reflexivity|].
  destruct (inject D (injection_script self));
    run_handler; [discriminate | reflexivity].
Qed.

(** Under any engine, a call that gets as far as replacing the body: when
    [set_text] raises, or the new text cannot be encoded for the size
    header, the exception is logged and the response stays as [set_text]
    left it; otherwise the size header is assigned next. *)
Lemma response_engine_mutated (self : YouTubeInterceptor) (flow : HTTPFlow) (D' : soup) :
  mutated_tree self flow = Some D' ->
  let url := pretty_url (request flow) in
  let out := engine_set_text (soup_str D') (flow_response flow) in
  let flow1 := mkFlow (request flow) out.1 in
  response_engine self flow =
  match out.2 with
  | Some e =>
      (Normal tt,
       mkWorld flow1 [(INFO, Intercepting url); (ERROR, ErrorProcessing url e)])
  | None =>
      match encode_utf8 (soup_str D') with
      | inr bytes =>
          (Normal tt,
           mkWorld (with_length flow1 (len bytes))
                   [(INFO, Intercepting url); (INFO, Injected url)])
      | inl e =>
          (Normal tt,
           mkWorld flow1 [(INFO, Intercepting url); (ERROR, ErrorProcessing url e)])
      end
  end.
Proof.
  unfold mutated_tree, with_length. run_handler.
  destruct (is_youtube_domain self (pretty_host (request flow)));
    run_handler; [|discriminate].
  destruct (is_html_response self (flow_response flow));
    run_handler; [|discriminate].
  destruct (body (flow_response flow)) as [[|c content] | | e];
    run_handler; try discriminate.
  destruct (BeautifulSoup (c :: content)) as [e | D];
    run_handler; [discriminate|].
  destruct (inject D (injection_script self)) as [D1|];
    run_handler; [|discriminate].
  intros HD. assert (D1 = D') as -> by congruence. clear HD.
  destruct (engine_set_text (soup_str D') (flow_response flow)) as [r1 [e|]];
    cbn [fst snd]; [reflexivity|].
  destruct (encode_utf8 (soup_str D')); reflexivity.
Qed.

(** ** The structural mutation *)

(** C3: for every document that contains a head tag, the injection succeeds,
    and in the resulting document the head tag (the same one, still the first
    head in document order) has as its first child a script tag whose only
    string is the payload trimmed of leading and trailing whitespace; the
    head's former children follow it. *)
Theorem inject_head_first_child (D : soup) (P : str) (head : path) :
  soup_find (lit "head") D = Some head ->
  exists a cs D',
    inject D P = Some D' /\
    get_at head D = Some (Tag (lit "head") a cs) /\
    soup_find (lit "head") D' = Some head /\
    get_at head D'
    = Some (Tag (lit "head") a
              (Tag (lit "script") [] [NavigableString PlainString (strip P)] :: cs)) /\
    script_text_at head D' = Some (strip P) /\
    trimmed P (strip P).
Proof.
  intros Hhead.
  destruct (soup_find_at _ _ _ head_not_document Hhead) as (a & cs & Hat).
  exists a, cs, (tag_insert head 0 (script_tag P) D).
  pose proof (get_at_insert_here _ (script_tag P) _ _ _ _ Hat) as Hat'.
  repeat split.
  - unfold inject. now rewrite Hhead.
  - exact Hat.
  - now apply soup_find_insert; [apply head_not_document|].
  - exact Hat'.
  - unfold script_text_at. now rewrite Hat'.
  - apply strip_spec.
Qed.

(** C4: for every document that has an html tag but no head tag, the
    injection succeeds; the resulting document has a new head tag, without
    attributes, as the first child of the html tag, before the html tag's
    former children, and that head holds the script tag and nothing else. *)
Theorem inject_synthesizes_head (D : soup) (P : str) (html_tag : path) :
  soup_find (lit "head") D = None ->
  soup_find (lit "html") D = Some html_tag ->
  exists a cs D',
    inject D P = Some D' /\
    get_at html_tag D = Some (Tag (lit "html") a cs) /\
    get_at html_tag D'
    = Some (Tag (lit "html") a
              (Tag (lit "head") []
                 [Tag (lit "script") [] [NavigableString PlainString (strip P)]]
               :: cs)) /\
    soup_find (lit "head") D' = Some (html_tag ++ [0%nat]) /\
    script_text_at (html_tag ++ [0%nat]) D' = Some (strip P).
Proof.
  intros Hhead Hhtml.
  destruct (inject D P) as [D'|] eqn:Hinj.
  2:{ unfold inject in Hinj. rewrite Hhead, Hhtml in Hinj. discriminate. }
  destruct (inject_Some _ _ _ Hinj)
    as (head & a & cs & Hfind' & Hat' & [[Hsome _] | (_ & -> & -> & Hnew)]).
  { congruence. }
  destruct Hnew as (q & a' & cs' & Hq & -> & Hat & Hat2).
  assert (q = html_tag) as -> by congruence.
  exists a', cs', D'. repeat split; try assumption.
  unfold script_text_at. now rewrite Hat'.
Qed.


(** Without a head and without an html tag the mutation does nothing. *)
Lemma inject_None (D : soup) (P : str) :
  soup_find (lit "head") D = None -> soup_find (lit "html") D = None ->
  inject D P = None.
Proof. intros Hh Hm. unfold inject. now rewrite Hh, Hm. Qed.

(** ** The handler *)

(** C5: when the parsed document has neither an html tag nor a head tag,
    nothing is injected: the mutation reports no anchor, the call ends by
    [return] after logging the interception and one warning, without an
    error record, and the flow delivered, body included, is the flow
    received. *)
Theorem no_skeleton_is_noop (self : YouTubeInterceptor) (flow : HTTPFlow)
    (content : str) (D : soup) :
  is_youtube_domain self (pretty_host (request flow)) = true ->
  is_html_response self (flow_response flow) = true ->
  body (flow_response flow) = BodyText content ->
  content <> [] ->
  BeautifulSoup content = inr D ->
  soup_find (lit "head") D = None ->
  soup_find (lit "html") D = None ->
  inject D (injection_script self) = None /\
  response self flow
  = (Returned,
     mkWorld flow [(INFO, Intercepting (pretty_url (request flow)));
                   (WARNING, NoHeadOrHtml)]) /\
  body (flow_response (delivered self flow)) = BodyText content.
Proof.
  intros Hy Hh Hb Hne HD Hhead Hhtml.
  pose proof (inject_None D (injection_script self) Hhead Hhtml) as Hinj.
  assert (Hrun : response self flow
                 = (Returned,
                    mkWorld flow [(INFO, Intercepting (pretty_url (request flow)));
                                  (WARNING, NoHeadOrHtml)])).
  { run_handler. rewrite Hy, Hh, Hb. destruct content as [|c content]; [congruence|].
    run_handler. rewrite HD. run_handler. rewrite Hinj. reflexivity. }
  repeat split; [exact Hinj | exact Hrun |].
  unfold delivered. rewrite Hrun. exact Hb.
Qed.

(** C1, as the code has it: whatever the engine's [set_text] does, a call of
    the handler never ends in an exception.  On every exit that comes before
    the body is replaced (host or media type not eligible, body absent or
    empty, text extraction raising, parser raising, no head and no html tag)
    the flow delivered is exactly the flow received.  The request is never
    touched, and the response can differ from the one received only when
    parsing and mutation have succeeded. *)
Theorem response_contains_faults (self : YouTubeInterceptor) (flow : HTTPFlow) :
  (forall e, (response_engine self flow).1 <> Raised e) /\
  (passes_through self flow -> delivered_engine self flow = flow) /\
  request (delivered_engine self flow) = request flow /\
  (delivered_engine self flow <> flow ->
   is_youtube_domain self (pretty_host (request flow)) = true /\
   is_html_response self (flow_response flow) = true /\
   exists content D D',
     body (flow_response flow) = BodyText content /\ content <> [] /\
     BeautifulSoup content = inr D /\
     inject D (injection_script self) = Some D').
Proof.
  unfold delivered_engine.
  destruct (mutated_tree self flow) as [D'|] eqn:Hm.
  - pose proof (response_engine_mutated _ _ _ Hm) as Hrun. cbv zeta in Hrun.
    split; [|split; [|split]].
    + rewrite Hrun.
      destruct (engine_set_text _ _).2; [discriminate|].
      destruct (encode_utf8 (soup_str D')); discriminate.
    + intros Hp%passes_through_unmutated. congruence.
    + rewrite Hrun.
      destruct (engine_set_text _ _).2; [reflexivity|].
      destruct (encode_utf8 (soup_str D')); reflexivity.
    + intros _.
      apply mutated_tree_Some in Hm as (Hy & Hh & content & D & Hb & Hne & HD & Hi).
      split; [exact Hy|]. split; [exact Hh|]. now exists content, D, D'.
  - rewrite (response_engine_unmutated _ _ Hm).
    destruct (response_unmutated _ _ Hm) as (c & l & Hrun & Hc).
    rewrite Hrun. split; [exact Hc | split; [|split]];
      [reflexivity | reflexivity | now intros []].
Qed.

(** ** The eligibility matcher *)

Lemma is_ascii_check (s : str) :
  forallb (fun c => c <? 0x80) s = true -> is_ascii s.
Proof.
  unfold is_ascii. rewrite forallb_forall, Forall_forall.
  intros H c Hc. apply N.ltb_lt, H. now apply list_elem_of_In.
Qed.

Lemma is_youtube_domain_nonempty (self : YouTubeInterceptor) (c : N) (h : str) :
  is_youtube_domain self (Some (c :: h)) = true <->
  exists d, In d (youtube_domains self) /\ substring d (lower (c :: h)).
Proof. cbn [is_youtube_domain]. apply existsb_contains. Qed.

Lemma youtube_domains_nonempty (d : str) :
  In d (youtube_domains YouTubeInterceptor_init) -> d <> [].
Proof.
  cbn [youtube_domains YouTubeInterceptor_init In].
  intros [<- | [<- | [<- | [<- | []]]]]; discriminate.
Qed.

Lemma substring_nil (d : str) : substring d [] -> d = [].
Proof.
  intros (l & r & H). symmetry in H.
  apply app_eq_nil in H as [_ H]. now apply app_eq_nil in H as [H _].
Qed.

(** C10: every entry of the rule set contains [youtube.com], and on every
    host, absent ones included, [is_youtube_domain] gives the result of the
    single-pattern check. *)
Theorem youtube_com_subsumes_rules :
  Forall (substring (lit "youtube.com")) (youtube_domains YouTubeInterceptor_init) /\
  forall host : option str,
    is_youtube_domain YouTubeInterceptor_init host = single_pattern_check host.
Proof.
  assert (Hall : Forall (substring (lit "youtube.com"))
                   (youtube_domains YouTubeInterceptor_init)).
  { cbn [youtube_domains YouTubeInterceptor_init].
    repeat constructor.
    - now exists [], [].
    - now exists (lit "m."), [].
    - now exists (lit "www."), [].
    - now exists (lit "music."), []. }
  split; [exact Hall|].
  intros [[|c h]|]; [reflexivity | | reflexivity].
  unfold single_pattern_check. cbn [bool_decide decide_rel negb andb].
  rewrite bool_decide_eq_false_2 by discriminate. cbn [negb andb].
  destruct (contains (lit "youtube.com") (lower (c :: h))) eqn:Hc.
  - apply is_youtube_domain_nonempty. exists (lit "youtube.com").
    split; [now left | now apply contains_spec].
  - destruct (is_youtube_domain _ _) eqn:Hy; [|reflexivity].
    apply is_youtube_domain_nonempty in Hy as (d & Hd & Hsub).
    rewrite Forall_forall in Hall.
    assert (substring (lit "youtube.com") (lower (c :: h))) as Hs.
    { eapply substring_trans; [|exact Hsub]. apply Hall. now apply list_elem_of_In. }
    apply contains_spec in Hs. congruence.
Qed.

(** On strings of ASCII characters the runtime's lower-casing is the ASCII
    one. *)
Hypothesis lower_ascii : forall s, is_ascii s -> lower s = ascii_lower s.

Lemma lower_nil : lower [] = [].
Proof. now rewrite lower_ascii by constructor. Qed.

Lemma lower_lit (s : string) :
  forallb (fun c => c <? 0x80) (lit s) = true -> lower (lit s) = ascii_lower (lit s).
Proof. intros H. now apply lower_ascii, is_ascii_check. Qed.

(** C6: a host is eligible exactly when, lower-cased, it contains an entry
    of the rule set as a substring; hosts that agree up to case get the same
    answer, as [YOUTUBE.COM] and [youtube.com] do; an absent host and the
    empty host are not eligible. *)
Theorem is_youtube_domain_iff :
  (forall H : str,
     is_youtube_domain YouTubeInterceptor_init (Some H) = true <->
     exists d, In d (youtube_domains YouTubeInterceptor_init) /\
               substring d (lower H)) /\
  (forall H1 H2 : str,
     lower H1 = lower H2 ->
     is_youtube_domain YouTubeInterceptor_init (Some H1)
     = is_youtube_domain YouTubeInterceptor_init (Some H2)) /\
  is_youtube_domain YouTubeInterceptor_init (Some (lit "YOUTUBE.COM")) = true /\
  is_youtube_domain YouTubeInterceptor_init (Some (lit "youtube.com")) = true /\
  is_youtube_domain YouTubeInterceptor_init None = false /\
  is_youtube_domain YouTubeInterceptor_init (Some []) = false.
Proof.
  assert (Hiff : forall H : str,
            is_youtube_domain YouTubeInterceptor_init (Some H) = true <->
            exists d, In d (youtube_domains YouTubeInterceptor_init) /\
                      substring d (lower H)).
  { intros [|c h]; [|apply is_youtube_domain_nonempty].
    rewrite lower_nil. split; [discriminate|].
    intros (d & Hd & Hsub). apply substring_nil in Hsub.
    now apply youtube_domains_nonempty in Hd. }
  split; [exact Hiff|]. split; [|repeat split].
  - intros H1 H2 Heq.
    destruct (is_youtube_domain _ (Some H2)) eqn:E2.
    + apply Hiff. rewrite Heq. now apply Hiff.
    + destruct (is_youtube_domain _ (Some H1)) eqn:E1; [|reflexivity].
      apply Hiff in E1. rewrite Heq in E1. apply Hiff in E1. congruence.
  - apply Hiff. exists (lit "youtube.com"). split; [now left|].
    rewrite lower_lit by reflexivity. now exists [], [].
  - apply Hiff. exists (lit "youtube.com"). split; [now left|].
    rewrite lower_lit by reflexivity. now exists [], [].
Qed.

Lemma is_html_response_get (self : YouTubeInterceptor) (r : Response) :
  is_html_response self r = true <->
  substring (lit "text/html") (lower (headers_get (headers r) (lit "content-type") [])).
Proof. unfold is_html_response. apply contains_spec. Qed.

(** C7: a response whose content-type field has the value [V] is HTML
    exactly when [V], lower-cased, contains [text/html], so parameters after
    the media type do not matter; a response without a content-type field
    and a response of type [application/json] are not HTML. *)
Theorem is_html_response_iff (self : YouTubeInterceptor) :
  (forall (r : Response) (k V : str),
     List.find (key_matches (lit "content-type")) (headers r) = Some (k, V) ->
     (is_html_response self r = true <-> substring (lit "text/html") (lower V))) /\
  (forall r : Response,
     List.find (key_matches (lit "content-type")) (headers r) = None ->
     is_html_response self r = false) /\
  (forall b : Body,
     is_html_response self
       (mkResponse [(lit "content-type", lit "application/json")] b) = false) /\
  (forall b : Body,
     is_html_response self
       (mkResponse [(lit "content-type", lit "text/html; charset=utf-8")] b) = true).
Proof.
  repeat split.
  - intros Hr. apply is_html_response_get in Hr.
    unfold headers_get in Hr. now rewrite H in Hr.
  - intros Hs. apply is_html_response_get. unfold headers_get. now rewrite H.
  - intros r Hnone. unfold is_html_response, headers_get. rewrite Hnone, lower_nil.
    reflexivity.
  - intros b. unfold is_html_response, headers_get. cbn [headers List.find].
    rewrite key_matches_refl. cbn [snd]. now rewrite lower_lit by reflexivity.
  - intros b. unfold is_html_response, headers_get. cbn [headers List.find].
    rewrite key_matches_refl. cbn [snd]. now rewrite lower_lit by reflexivity.
Qed.

(** ** Further properties of the eligibility matcher *)

Lemma ascii_lower_app (a b : str) :
  ascii_lower (a ++ b) = ascii_lower a ++ ascii_lower b.
Proof. apply map_app. Qed.

Lemma is_ascii_app (a b : str) : is_ascii (a ++ b) <-> is_ascii a /\ is_ascii b.
Proof. apply Forall_app. Qed.

(** In a string of ASCII characters, the lower-cased string contains a
    lower-case pattern exactly when the string contains a case variant of
    the pattern. *)
Lemma substring_lower_ascii (pat s : str) :
  is_ascii s ->
  substring pat (lower s) <->
  exists l m r, s = l ++ m ++ r /\ ascii_lower m = pat.
Proof.
  intros Hs. rewrite (lower_ascii s Hs). unfold substring, ascii_lower. split.
  - intros (l' & r' & H).
    apply map_eq_app in H as (l & mr & -> & <- & H).
    apply map_eq_app in H as (m & r & -> & <- & <-).
    now exists l, m, r.
  - intros (l & m & r & -> & <-).
    exists (map ascii_lower_char l), (map ascii_lower_char r).
    now rewrite !map_app.
Qed.

(** On a non-empty host the rule set decides as its entry [youtube.com]
    alone does. *)
Lemma is_youtube_domain_single (c : N) (h : str) :
  is_youtube_domain YouTubeInterceptor_init (Some (c :: h))
  = contains (lit "youtube.com") (lower (c :: h)).
Proof.
  destruct (contains (lit "youtube.com") (lower (c :: h))) eqn:Hc.
  - apply is_youtube_domain_nonempty. exists (lit "youtube.com").
    split; [now left | now apply contains_spec].
  - destruct (is_youtube_domain _ _) eqn:Hy; [|reflexivity].
    apply is_youtube_domain_nonempty in Hy as (d & Hd & Hsub).
    assert (substring (lit "youtube.com") d) as Hyd.
    { cbn [youtube_domains YouTubeInterceptor_init In] in Hd.
      destruct Hd as [<- | [<- | [<- | [<- | []]]]].
      - now exists [], [].
      - now exists (lit "m."), [].
      - now exists (lit "www."), [].
      - now exists (lit "music."), []. }
    pose proof (substring_trans _ _ _ Hyd Hsub) as Hs.
    apply contains_spec in Hs. congruence.
Qed.

(** A host is eligible exactly when its lower-cased form contains
    [youtube.com]. *)
Lemma eligible_iff_substring (H : str) :
  is_youtube_domain YouTubeInterceptor_init (Some H) = true <->
  substring (lit "youtube.com") (lower H).
Proof.
  destruct H as [|c h].
  - rewrite lower_nil. split; [discriminate|].
    intros Hs%substring_nil. discriminate.
  - rewrite is_youtube_domain_single. apply contains_spec.
Qed.

(** X1: a host made of ASCII characters is eligible exactly when it contains
    [youtube.com] written in any mix of upper and lower case. *)
Theorem eligible_host_has_case_variant (H : str) :
  is_ascii H ->
  is_youtube_domain YouTubeInterceptor_init (Some H) = true <->
  exists l m r, H = l ++ m ++ r /\ ascii_lower m = lit "youtube.com".
Proof.
  intros HH. rewrite <- (substring_lower_ascii _ _ HH).
  apply eligible_iff_substring.
Qed.

(** X2: the match is by substring, so every ASCII host that contains an
    eligible host is eligible too, whatever surrounds it. *)
Theorem eligible_host_inside_host (H H' : str) :
  is_ascii H' ->
  substring H H' ->
  is_youtube_domain YouTubeInterceptor_init (Some H) = true ->
  is_youtube_domain YouTubeInterceptor_init (Some H') = true.
Proof.
  intros HH' (l & r & ->) Hy.
  pose proof HH' as Hparts. apply is_ascii_app in Hparts as [Hl Hparts].
  apply is_ascii_app in Hparts as [HH Hr].
  apply eligible_iff_substring in Hy. apply eligible_iff_substring.
  rewrite (lower_ascii _ HH') , !ascii_lower_app.
  rewrite (lower_ascii _ HH) in Hy.
  eapply substring_trans; [exact Hy|].
  now exists (ascii_lower l), (ascii_lower r).
Qed.

(** X3: a response whose content-type value is made of ASCII characters is
    HTML exactly when that value contains [text/html] written in any mix of
    upper and lower case. *)
Theorem html_response_has_case_variant (self : YouTubeInterceptor)
    (r : Response) (k V : str) :
  List.find (key_matches (lit "content-type")) (headers r) = Some (k, V) ->
  is_ascii V ->
  is_html_response self r = true <->
  exists l m r', V = l ++ m ++ r' /\ ascii_lower m = lit "text/html".
Proof.
  intros Hfind HV. rewrite <- (substring_lower_ascii _ _ HV).
  rewrite is_html_response_get. unfold headers_get. now rewrite Hfind.
Qed.

(** ** Further properties of the handler *)

(** X4: a flow whose host or media type does not qualify, or whose body is
    absent or empty, is left as it is, and nothing is logged for it. *)
Theorem ineligible_exits_are_silent (self : YouTubeInterceptor) (flow : HTTPFlow) :
  is_youtube_domain self (pretty_host (request flow)) = false \/
  is_html_response self (flow_response flow) = false \/
  body (flow_response flow) = BodyNone \/
  body (flow_response flow) = BodyText [] ->
  response self flow = (Returned, mkWorld flow []).
Proof.
  intros Hcase. run_handler.
  destruct (is_youtube_domain self (pretty_host (request flow))) eqn:Hy;
    run_handler; [|reflexivity].
  destruct (is_html_response self (flow_response flow)) eqn:Hh;
    run_handler; [|reflexivity].
  destruct Hcase as [H | [H | [H | H]]]; try discriminate;
    rewrite H; reflexivity.
Qed.

(** X5: when the host and the media type qualify and the extraction of the
    text raises, the exception is caught by the outer handler: the call ends
    normally, the flow is as it was, and the log is the single error record
    with the URL of the flow. *)
Theorem text_fault_is_logged (self : YouTubeInterceptor) (flow : HTTPFlow)
    (e : Exception) :
  is_youtube_domain self (pretty_host (request flow)) = true ->
  is_html_response self (flow_response flow) = true ->
  body (flow_response flow) = BodyUndecodable e ->
  response self flow
  = (Normal tt,
     mkWorld flow [(ERROR, ErrorProcessing (pretty_url (request flow)) e)]).
Proof.
  intros Hy Hh Hb. run_handler. rewrite Hy, Hh, Hb. reflexivity.
Qed.

(** X6: when the parser raises, the inner handler logs the parse failure and
    returns: the flow is as it was, and the log holds the interception record
    followed by one parse-failure record, not the outer error record. *)
Theorem parse_failure_is_logged (self : YouTubeInterceptor) (flow : HTTPFlow)
    (content : str) (e : Exception) :
  is_youtube_domain self (pretty_host (request flow)) = true ->
  is_html_response self (flow_response flow) = true ->
  body (flow_response flow) = BodyText content ->
  content <> [] ->
  BeautifulSoup content = inl e ->
  response self flow
  = (Returned,
     mkWorld flow [(INFO, Intercepting (pretty_url (request flow)));
                   (ERROR, FailedToParse e)]).
Proof.
  intros Hy Hh Hb Hne He. run_handler. rewrite Hy, Hh, Hb.
  destruct content as [|c content]; [congruence|].
  run_handler. rewrite He. reflexivity.
Qed.

Ltac handler_quiet :=
  intros _; eexists _, _; split; [reflexivity |];
  cbn [In app]; intros url Hin;
  repeat match goal with
         | H : _ \/ _ |- _ => destruct H
         | H : False |- _ => destruct H
         | H : (_, _) = (_, _) |- _ => discriminate H
         end.

(** A call that replaces nothing logs no success record. *)
Lemma response_unmutated_log (self : YouTubeInterceptor) (flow : HTTPFlow) :
  mutated_tree self flow = None ->
  exists c l, response self flow = (c, mkWorld flow l) /\
              forall url, ~ In (INFO, Injected url) l.
Proof.
  unfold mutated_tree. run_handler.
  destruct (is_youtube_domain self (pretty_host (request flow)));
    run_handler; [|handler_quiet].
  destruct (is_html_response self (flow_response flow));
    run_handler; [|handler_quiet].
  destruct (body (flow_response flow)) as [[|c content] | | e];
    run_handler; try handler_quiet.
  destruct (BeautifulSoup (c :: content)) as [e | D];
    run_handler; [handler_quiet|].
  destruct (inject D (injection_script self));
    run_handler; [discriminate | handler_quiet].
Qed.

(** X7: the success record is logged exactly when the body was replaced by
    the serialized mutated tree and the size field was assigned the byte
    length of that text. *)
Theorem injected_logged_iff (self : YouTubeInterceptor) (flow : HTTPFlow) :
  In (INFO, Injected (pretty_url (request flow))) (logged self flow) <->
  exists D' bytes,
    mutated_tree self flow = Some D' /\
    encode_utf8 (soup_str D') = inr bytes /\
    delivered self flow = with_length (with_body flow (soup_str D')) (len bytes).
Proof.
  unfold logged, delivered. split.
  - destruct (mutated_tree self flow) as [D'|] eqn:Hm.
    + pose proof (response_mutated _ _ _ Hm) as Hrun. cbv zeta in Hrun.
      rewrite Hrun. destruct (encode_utf8 (soup_str D')) as [e | bytes] eqn:He.
      * cbn [snd w_log In]. intros [H | [H | []]]; discriminate.
      * intros _. exists D', bytes. repeat split. exact He.
    + destruct (response_unmutated_log _ _ Hm) as (c & l & Hrun & Hno).
      rewrite Hrun. cbn [snd w_log]. intros Hin. now apply Hno in Hin.
  - intros (D' & bytes & Hm & He & _).
    pose proof (response_mutated _ _ _ Hm) as Hrun. cbv zeta in Hrun.
    rewrite Hrun, He. cbn [snd w_log In]. right. now left.
Qed.

(** The fields of a header mapping that are not called [k]. *)
Lemma set_fields_others (k v : str) (seen : bool) (h : Headers) :
  List.filter (fun f => negb (key_matches k f)) (set_fields k v seen h)
  = List.filter (fun f => negb (key_matches k f)) h.
Proof.
  revert seen. induction h as [|f h IH]; intros seen; cbn [set_fields List.filter].
  - destruct seen; [reflexivity|]. cbn [List.filter].
    now rewrite key_matches_refl.
  - destruct (key_matches k f) eqn:Hf; cbn [negb].
    + destruct seen; [apply IH|]. cbn [List.filter].
      unfold key_matches in *. cbn [fst]. rewrite Hf. cbn [negb]. apply IH.
    + cbn [List.filter]. rewrite Hf. cbn [negb]. now rewrite IH.
Qed.

(** The fields called [k] after an assignment. *)
Lemma set_fields_same (k v : str) (h : Headers) :
  List.filter (key_matches k) (set_fields k v true h) = [] /\
  exists name, List.filter (key_matches k) (set_fields k v false h) = [(name, v)].
Proof.
  induction h as [|f h [IHt [name IHf]]]; cbn [set_fields List.filter].
  - split; [reflexivity|]. exists k. now rewrite key_matches_refl.
  - destruct (key_matches k f) eqn:Hf.
    + split; [exact IHt|]. exists f.1. cbn [List.filter].
      unfold key_matches in *. cbn [fst]. now rewrite Hf, IHt.
    + cbn [List.filter]. rewrite Hf. split; [exact IHt|]. now exists name.
Qed.

(** The flow a call delivers: the flow received, or that flow with a new
    body text and possibly a new size field. *)
Lemma delivered_cases (self : YouTubeInterceptor) (flow : HTTPFlow) :
  delivered self flow = flow \/
  exists D',
    mutated_tree self flow = Some D' /\
    (delivered self flow = with_body flow (soup_str D') \/
     exists bytes,
       encode_utf8 (soup_str D') = inr bytes /\
       delivered self flow = with_length (with_body flow (soup_str D')) (len bytes)).
Proof.
  unfold delivered. destruct (mutated_tree self flow) as [D'|] eqn:Hm.
  - right. exists D'. split; [reflexivity|].
    pose proof (response_mutated _ _ _ Hm) as Hrun. cbv zeta in Hrun.
    rewrite Hrun. destruct (encode_utf8 (soup_str D')) as [e | bytes].
    + now left.
    + right. now exists bytes.
  - left. destruct (response_unmutated _ _ Hm) as (c & l & Hrun & _).
    now rewrite Hrun.
Qed.

(** X8: whatever the engine's [set_text] does, the handler leaves the
    request alone, and what it changes in the response beyond the call of
    [set_text] is the fields called content-length: the body and the other
    header fields delivered are those [set_text] left, in the same order. *)
Theorem response_touches_only_body_and_length (self : YouTubeInterceptor)
    (flow : HTTPFlow) :
  request (delivered_engine self flow) = request flow /\
  (delivered_engine self flow = flow \/
   exists D',
     mutated_tree self flow = Some D' /\
     let left := (engine_set_text (soup_str D') (flow_response flow)).1 in
     body (flow_response (delivered_engine self flow)) = body left /\
     List.filter (fun f => negb (key_matches (lit "content-length") f))
       (headers (flow_response (delivered_engine self flow)))
     = List.filter (fun f => negb (key_matches (lit "content-length") f))
         (headers left)).
Proof.
  unfold delivered_engine.
  destruct (mutated_tree self flow) as [D'|] eqn:Hm.
  - pose proof (response_engine_mutated _ _ _ Hm) as Hrun. cbv zeta in Hrun.
    split.
    + rewrite Hrun. destruct (engine_set_text _ _).2; [reflexivity|].
      destruct (encode_utf8 (soup_str D')); reflexivity.
    + right. exists D'. split; [reflexivity|]. cbv zeta. rewrite Hrun.
      destruct (engine_set_text (soup_str D') (flow_response flow)) as [r1 [e|]];
        cbn [fst snd w_flow flow_response headers body].
      * split; reflexivity.
      * destruct (encode_utf8 (soup_str D')) as [e | bytes];
          cbn [snd w_flow with_length flow_response headers body];
          (split; [reflexivity|]); [reflexivity | apply set_fields_others].
  - rewrite (response_engine_unmutated _ _ Hm).
    destruct (response_unmutated _ _ Hm) as (c & l & Hrun & _).
    rewrite Hrun. split; [reflexivity | now left].
Qed.

(** X9: after an injection whose text was encoded, the delivered headers
    hold exactly one field called content-length, whatever number of such
    fields was received, and its value is the numeral of the byte length. *)
Theorem reconciled_length_is_unique (self : YouTubeInterceptor) (flow : HTTPFlow)
    (D' : soup) (bytes : list N) :
  mutated_tree self flow = Some D' ->
  encode_utf8 (soup_str D') = inr bytes ->
  exists name,
    List.filter (key_matches (lit "content-length"))
      (headers (flow_response (delivered self flow)))
    = [(name, str_of_int (len bytes))].
Proof.
  intros Hm He. pose proof (response_mutated _ _ _ Hm) as Hrun. cbv zeta in Hrun.
  rewrite He in Hrun. unfold delivered. rewrite Hrun.
  cbn [snd w_flow with_length with_body flow_response headers].
  apply set_fields_same.
Qed.

Lemma key_matches_exclusive (k k' : str) (f : str * str) :
  lower k <> lower k' -> key_matches k f = true -> key_matches k' f = false.
Proof.
  unfold key_matches. intros Hne Hk%str_eqb_eq.
  apply bool_decide_eq_false. congruence.
Qed.

(** An assignment to the field [k] does not change what a lookup of a
    field with another name finds. *)
Lemma find_set_fields_other (k k' v : str) (seen : bool) (h : Headers) :
  lower k <> lower k' ->
  List.find (key_matches k') (set_fields k v seen h) = List.find (key_matches k') h.
Proof.
  intros Hne. revert seen.
  induction h as [|f h IH]; intros seen; cbn [set_fields List.find].
  - destruct seen; [reflexivity|]. cbn [List.find].
    now rewrite (key_matches_exclusive k k' (k, v) Hne (key_matches_refl k v)).
  - destruct (key_matches k f) eqn:Hf.
    + rewrite (key_matches_exclusive k k' f Hne Hf).
      destruct seen; [apply IH|]. cbn [List.find].
      assert (key_matches k' (f.1, v) = false) as ->.
      { apply (key_matches_exclusive k k' _ Hne). unfold key_matches in *. exact Hf. }
      apply IH.
    + cbn [List.find]. destruct (key_matches k' f); [reflexivity | apply IH].
Qed.

Lemma content_length_not_content_type :
  lower (lit "content-length") <> lower (lit "content-type").
Proof. rewrite !lower_lit by reflexivity. discriminate. Qed.

(** The media type of the delivered flow qualifies exactly when the media
    type received did. *)
Lemma delivered_html_response (self : YouTubeInterceptor) (flow : HTTPFlow) :
  is_html_response self (flow_response (delivered self flow))
  = is_html_response self (flow_response flow).
Proof.
  destruct (delivered_cases self flow)
    as [-> | (D' & _ & [-> | (bytes & _ & ->)])]; try reflexivity.
  unfold is_html_response, headers_get, with_length, with_body.
  cbn [flow_response headers].
  now rewrite (find_set_fields_other _ _ _ _ _ content_length_not_content_type).
Qed.

Lemma delivered_request (self : YouTubeInterceptor) (flow : HTTPFlow) :
  request (delivered self flow) = request flow.
Proof.
  now destruct (delivered_cases self flow)
    as [-> | (D' & _ & [-> | (bytes & _ & ->)])].
Qed.

(** X10: the handler never changes whether a flow is eligible: the host of
    the delivered flow qualifies exactly when the host received did, and so
    does the media type. *)
Theorem response_keeps_eligibility (self : YouTubeInterceptor) (flow : HTTPFlow) :
  is_youtube_domain self (pretty_host (request (delivered self flow)))
  = is_youtube_domain self (pretty_host (request flow)) /\
  is_html_response self (flow_response (delivered self flow))
  = is_html_response self (flow_response flow).
Proof.
  split; [now rewrite delivered_request | apply delivered_html_response].
Qed.

(** X11: a second pass of the handler over the flow it delivered injects
    again.  When the first call replaced the body with the text of a tree
    that the parser reads back as that tree, the second call serializes a
    tree whose head starts with two copies of the script tag. *)
Theorem response_twice_duplicates (self : YouTubeInterceptor) (flow : HTTPFlow)
    (D' : soup) :
  mutated_tree self flow = Some D' ->
  soup_str D' <> [] ->
  BeautifulSoup (soup_str D') = inr D' ->
  let flow1 := delivered self flow in
  exists head a cs D'',
    get_at head D'
    = Some (Tag (lit "head") a (script_tag (injection_script self) :: cs)) /\
    mutated_tree self flow1 = Some D'' /\
    get_at head D''
    = Some (Tag (lit "head") a
              (script_tag (injection_script self)
               :: script_tag (injection_script self) :: cs)) /\
    body (flow_response (delivered self flow1)) = BodyText (soup_str D'').
Proof.
  intros Hm Hne Hround flow1.
  destruct (proj1 (mutated_tree_Some _ _ _) Hm)
    as (Hy & Hh & content & D & Hb & _ & HD & Hi).
  destruct (inject_Some _ _ _ Hi) as (head & a & cs & Hfind' & Hat' & _).
  set (P := injection_script self) in *.
  set (D'' := tag_insert head 0 (script_tag P) D').
  assert (Hi' : inject D' P = Some D'') by (unfold inject; now rewrite Hfind').
  assert (Hbody1 : body (flow_response flow1) = BodyText (soup_str D')).
  { subst flow1. unfold delivered.
    pose proof (response_mutated _ _ _ Hm) as Hrun. cbv zeta in Hrun.
    rewrite Hrun. destruct (encode_utf8 (soup_str D')); reflexivity. }
  assert (Hm1 : mutated_tree self flow1 = Some D'').
  { apply mutated_tree_Some.
    subst flow1. rewrite delivered_request, delivered_html_response.
    repeat split; try assumption.
    now exists (soup_str D'), D'. }
  exists head, a, cs, D''. repeat split; try assumption.
  - now apply get_at_insert_here.
  - pose proof (response_mutated _ _ _ Hm1) as Hrun. cbv zeta in Hrun.
    unfold delivered. rewrite Hrun.
    destruct (encode_utf8 (soup_str D'')); reflexivity.
Qed.

Lemma logged_expected (self : YouTubeInterceptor) (flow : HTTPFlow) :
  logged self flow = expected_log self flow.
Proof.
  unfold logged, expected_log. run_handler.
  destruct (is_youtube_domain self (pretty_host (request flow)));
    run_handler; [|reflexivity].
  destruct (is_html_response self (flow_response flow));
    run_handler; [|reflexivity].
  destruct (body (flow_response flow)) as [[|c content] | | e];
    run_handler; try reflexivity.
  destruct (BeautifulSoup (c :: content)) as [e | D];
    run_handler; [reflexivity|].
  destruct (inject D (injection_script self)) as [D'|];
    run_handler; [|reflexivity].
  destruct (encode_utf8 (soup_str D')); reflexivity.
Qed.

(** X12: the interception record is logged exactly for the flows that
    reach the parser: host and media type qualify and the body has text. *)
Theorem intercepting_logged_iff (self : YouTubeInterceptor) (flow : HTTPFlow) :
  In (INFO, Intercepting (pretty_url (request flow))) (logged self flow) <->
  is_youtube_domain self (pretty_host (request flow)) = true /\
  is_html_response self (flow_response flow) = true /\
  exists c content, body (flow_response flow) = BodyText (c :: content).
Proof.
  rewrite logged_expected. unfold expected_log.
  destruct (is_youtube_domain self (pretty_host (request flow)));
    [|split; [intros [] | intros [H _]; discriminate H]].
  destruct (is_html_response self (flow_response flow));
    [|split; [intros [] | intros (_ & H & _); discriminate H]].
  cbn [andb].
  destruct (body (flow_response flow)) as [[|c content] | | e].
  - split; [intros [] | intros (_ & _ & c & content & H); discriminate H].
  - split; [|intros _; now left]. intros _. repeat split. now exists c, content.
  - split; [intros [] | intros (_ & _ & c & content & H); discriminate H].
  - split; [|intros (_ & _ & c & content & H); discriminate H].
    intros [H | []]. discriminate H.
Qed.

(** ** Further properties of the structural mutation *)

Lemma alter_lookup (f : node -> node) (cs : list node) (i : nat) (c : node) :
  cs !! i = Some c -> alter f i cs = take i cs ++ f c :: drop (S i) cs.
Proof.
  revert i. induction cs as [|x cs IH]; intros [|i]; try discriminate.
  - now intros [= ->].
  - intros H. cbn. f_equal. now apply IH.
Qed.

Lemma flat_map_lookup (cs : list node) (i : nat) (c : node) :
  cs !! i = Some c ->
  flat_map events cs
  = flat_map events (take i cs) ++ events c ++ flat_map events (drop (S i) cs).
Proof.
  intros H. rewrite <- (take_drop_middle cs i c H) at 1.
  rewrite flat_map_app. reflexivity.
Qed.

(** Inserting a first child into the tag a path leads to puts the events of
    the new child right after the start tag of that tag and leaves all other
    events as they are. *)
Lemma events_insert (p : path) :
  forall n nm a cs,
    node_at p n = Some (Tag nm a cs) ->
    exists e2,
      events n = events_before p n ++ StartTag nm a :: e2 /\
      forall new,
        events (node_insert p 0 new n)
        = events_before p n ++ StartTag nm a :: events new ++ e2.
Proof.
  induction p as [|i p IH]; intros n nm a cs.
  - intros [= ->]. exists (flat_map events cs ++ [EndTag nm]).
    split; [reflexivity|]. intros new.
    change (node_insert [] 0 new (Tag nm a cs)) with (Tag nm a (new :: cs)).
    cbn [events events_before flat_map app]. now rewrite <- app_assoc.
  - cbn [node_at]. destruct n as [cls s | nm0 a0 cs0]; cbn [node_contents].
    + rewrite lookup_nil. discriminate.
    + destruct (cs0 !! i) as [c|] eqn:Hi; [|discriminate]. intros Hat.
      destruct (IH c nm a cs Hat) as (e2 & He & Hins).
      exists (e2 ++ flat_map events (drop (S i) cs0) ++ [EndTag nm0]).
      cbn [events events_before node_insert]. rewrite Hi. split.
      * rewrite (flat_map_lookup _ _ _ Hi), He.
        cbn [app]. f_equal. rewrite <- !app_assoc. cbn [app]. reflexivity.
      * intros new. rewrite (alter_lookup _ _ _ _ Hi), flat_map_app.
        cbn [flat_map]. rewrite Hins.
        cbn [app]. f_equal. rewrite <- !app_assoc. cbn [app].
        rewrite <- !app_assoc. reflexivity.
Qed.

Lemma str_eqb_false (a b : str) : str_eqb a b = false -> a <> b.
Proof. unfold str_eqb. apply bool_decide_eq_false. Qed.

(** A search that fails has seen every start tag: none bears the name. *)
Lemma find_node_None_events (name : str) (n : node) :
  find_node name n = None -> forall a, ~ In (StartTag name a) (events n).
Proof.
  induction n as [cls s | nm a0 cs IH] using node_ind_children; intros Hnone a.
  - cbn. intros [H | []]. discriminate.
  - rewrite find_node_tag in Hnone.
    destruct (str_eqb nm name) eqn:Hnm; [discriminate|].
    apply str_eqb_false in Hnm.
    apply find_in_None in Hnone. cbn [events In]. intros [H | H].
    + injection H as -> _. congruence.
    + apply in_app_or in H as [H | [H | []]]; [|discriminate].
      apply in_flat_map in H as (c & Hc & Hin).
      rewrite Forall_forall in IH, Hnone.
      apply list_elem_of_In in Hc.
      exact (IH c Hc (Hnone c Hc) a Hin).
Qed.

(** The tag a search returns is the first of its name: no start tag before
    it bears the name. *)
Lemma find_node_first (name : str) (n : node) :
  forall p, find_node name n = Some p ->
  forall a, ~ In (StartTag name a) (events_before p n).
Proof.
  induction n as [cls s | nm a0 cs IH] using node_ind_children; intros p.
  - discriminate.
  - rewrite find_node_tag. destruct (str_eqb nm name) eqn:Hnm.
    + intros [= <-] a []. 
    + apply str_eqb_false in Hnm.
      intros (l1 & c & l2 & p' & -> & -> & Hall & Hc)%find_in_Some a.
      cbn [events_before Nat.add]. rewrite lookup_middle, take_app_length.
      cbn [In]. intros [H | H].
      * injection H as -> _. congruence.
      * apply in_app_or in H as [H | H].
        -- apply in_flat_map in H as (x & Hx & Hin).
           rewrite Forall_forall in Hall. apply list_elem_of_In in Hx.
           exact (find_node_None_events _ _ (Hall x Hx) a Hin).
        -- rewrite Forall_forall in IH.
           refine (IH c _ p' Hc a H). apply list_elem_of_In, in_elt.
Qed.

Lemma get_at_nonempty (p : path) (s : soup) nm a cs :
  nm <> lit "[document]" -> get_at p s = Some (Tag nm a cs) -> p <> [].
Proof.
  intros Hne Hat ->.
  change (Some (Tag (lit "[document]") [] s) = Some (Tag nm a cs)) in Hat.
  congruence.
Qed.

Lemma soup_events_insert (p : path) (s : soup) nm a cs :
  nm <> lit "[document]" ->
  get_at p s = Some (Tag nm a cs) ->
  exists e2,
    soup_events s = soup_events_before p s ++ StartTag nm a :: e2 /\
    forall new,
      soup_events (tag_insert p 0 new s)
      = soup_events_before p s ++ StartTag nm a :: events new ++ e2.
Proof.
  intros Hne Hat. pose proof (get_at_nonempty _ _ _ _ _ Hne Hat) as Hp.
  destruct p as [|i p]; [congruence|]. clear Hp.
  unfold get_at, document in Hat. cbn [node_at node_contents] in Hat.
  destruct ((s : list node) !! i) as [c|] eqn:Hi; [|discriminate Hat].
  destruct (events_insert p c nm a cs Hat) as (e2 & He & Hins).
  exists (e2 ++ flat_map events (drop (S i) s)).
  unfold soup_events, soup_events_before. rewrite Hi. split.
  - rewrite (flat_map_lookup _ _ _ Hi), He. now rewrite <- !app_assoc.
  - intros new.
    change (tag_insert (i :: p) 0 new s) with (alter (node_insert p 0 new) i s).
    rewrite (alter_lookup _ _ _ _ Hi), flat_map_app. cbn [flat_map].
    rewrite Hins. rewrite <- !app_assoc. cbn [app]. now rewrite <- !app_assoc.
Qed.

Lemma soup_find_None_events (name : str) (s : soup) :
  soup_find name s = None -> forall a, ~ In (StartTag name a) (soup_events s).
Proof.
  intros Hnone%find_in_None a (c & Hc & Hin)%in_flat_map.
  rewrite Forall_forall in Hnone. apply list_elem_of_In in Hc.
  exact (find_node_None_events _ _ (Hnone c Hc) a Hin).
Qed.

Lemma soup_find_first (name : str) (s : soup) (p : path) :
  soup_find name s = Some p ->
  forall a, ~ In (StartTag name a) (soup_events_before p s).
Proof.
  intros (l1 & c & l2 & p' & -> & -> & Hall & Hc)%find_in_Some a.
  cbn [soup_events_before Nat.add]. rewrite lookup_middle, take_app_length.
  intros [H | H]%in_app_or.
  - apply in_flat_map in H as (x & Hx & Hin).
    rewrite Forall_forall in Hall. apply list_elem_of_In in Hx.
    exact (find_node_None_events _ _ (Hall x Hx) a Hin).
  - exact (find_node_first _ _ _ Hc a H).
Qed.

(** A tag is found exactly when a start tag of its name occurs. *)
Lemma soup_find_Some_iff (name : str) (s : soup) :
  name <> lit "[document]" ->
  (exists p, soup_find name s = Some p) <->
  exists a, In (StartTag name a) (soup_events s).
Proof.
  intros Hne. split.
  - intros (p & Hp). destruct (soup_find_at _ _ _ Hne Hp) as (a & cs & Hat).
    destruct (soup_events_insert _ _ _ _ _ Hne Hat) as (e2 & -> & _).
    exists a. apply in_or_app. right. now left.
  - intros (a & Hin). destruct (soup_find name s) as [p|] eqn:Hf; [now exists p|].
    now apply (soup_find_None_events _ _ Hf a) in Hin.
Qed.

(** X13: whether the mutation succeeds depends on the document alone, not on
    the payload: it succeeds exactly when the document has a start tag called
    head or a start tag called html. *)
Theorem inject_succeeds_iff (D : soup) (P : str) :
  (exists D', inject D P = Some D') <->
  (exists a, In (StartTag (lit "head") a) (soup_events D)) \/
  (exists a, In (StartTag (lit "html") a) (soup_events D)).
Proof.
  rewrite <- !soup_find_Some_iff by discriminate. unfold inject. split.
  - intros (D' & H).
    destruct (soup_find (lit "head") D) as [p|]; [left; now exists p|].
    destruct (soup_find (lit "html") D) as [q|]; [right; now exists q | discriminate].
  - intros [(p & ->) | (q & Hq)]; [now eexists|].
    destruct (soup_find (lit "head") D); [now eexists|]. rewrite Hq. now eexists.
Qed.

(** X14: in a document with a head, the mutation writes the script tag
    immediately after the first start tag called head; every other event of
    the document stays where it was. *)
Theorem inject_after_head_start (D : soup) (P : str) :
  (exists a, In (StartTag (lit "head") a) (soup_events D)) ->
  exists e1 a e2 D',
    soup_events D = e1 ++ StartTag (lit "head") a :: e2 /\
    (forall a', ~ In (StartTag (lit "head") a') e1) /\
    inject D P = Some D' /\
    soup_events D' = e1 ++ StartTag (lit "head") a :: script_events P ++ e2.
Proof.
  intros (p & Hp)%soup_find_Some_iff; [|discriminate].
  destruct (soup_find_at _ _ _ head_not_document Hp) as (a & cs & Hat).
  destruct (soup_events_insert _ _ _ _ _ head_not_document Hat) as (e2 & He & Hins).
  exists (soup_events_before p D), a, e2, (tag_insert p 0 (script_tag P) D).
  repeat split.
  - exact He.
  - apply (soup_find_first _ _ _ Hp).
  - unfold inject. now rewrite Hp.
  - apply Hins.
Qed.

(** Inserting a first child into a tag that was itself just inserted as a
    first child amounts to inserting the completed tag. *)
Lemma node_insert_nested (q : path) (x : node) nm' a' cs' :
  forall n nm a cs,
    node_at q n = Some (Tag nm a cs) ->
    node_insert (q ++ [0%nat]) 0 x (node_insert q 0 (Tag nm' a' cs') n)
    = node_insert q 0 (Tag nm' a' (x :: cs')) n.
Proof.
  induction q as [|i q IH]; intros n nm a cs.
  - intros [= ->]. reflexivity.
  - cbn [node_at]. destruct n as [cls s | nm0 a0 cs0]; cbn [node_contents].
    + rewrite lookup_nil. discriminate.
    + destruct (cs0 !! i) as [c|] eqn:Hi; [|discriminate]. intros Hat.
      cbn [app node_insert]. f_equal.
      rewrite list_alter_alter_eq. apply list_alter_ext; [|reflexivity].
      intros c' Hc'. cbn. assert (c' = c) as -> by congruence.
      exact (IH c nm a cs Hat).
Qed.

Lemma tag_insert_nested (q : path) (x : node) (D : soup) nm' a' cs' nm a cs :
  get_at q D = Some (Tag nm a cs) ->
  tag_insert (q ++ [0%nat]) 0 x (tag_insert q 0 (Tag nm' a' cs') D)
  = tag_insert q 0 (Tag nm' a' (x :: cs')) D.
Proof.
  intros Hat. unfold tag_insert at 1. rewrite document_insert.
  unfold tag_insert. f_equal.
  exact (node_insert_nested q x nm' a' cs' (document D) _ _ _ Hat).
Qed.

(** X15: when the document has an html tag and no head, the two insertions
    of the mutation amount to one: the result is the document with a head
    that already holds the script inserted as the first child of the html
    tag. *)
Theorem inject_inserts_complete_head (D : soup) (P : str) (html_tag : path) :
  soup_find (lit "head") D = None ->
  soup_find (lit "html") D = Some html_tag ->
  inject D P
  = Some (tag_insert html_tag 0 (Tag (lit "head") [] [script_tag P]) D).
Proof.
  intros Hhead Hhtml. unfold inject. rewrite Hhead, Hhtml. cbv zeta. f_equal.
  destruct (soup_find_at _ _ _ html_not_document Hhtml) as (a & cs & Hat).
  exact (tag_insert_nested html_tag (script_tag P) D (lit "head") [] [] _ _ _ Hat).
Qed.

(** X16: in a document with an html tag and no head, the mutation writes a
    head that holds the script immediately after the first start tag called
    html; every other event of the document stays where it was. *)
Theorem inject_after_html_start (D : soup) (P : str) :
  (forall a, ~ In (StartTag (lit "head") a) (soup_events D)) ->
  (exists a, In (StartTag (lit "html") a) (soup_events D)) ->
  exists e1 a e2 D',
    soup_events D = e1 ++ StartTag (lit "html") a :: e2 /\
    (forall a', ~ In (StartTag (lit "html") a') e1) /\
    inject D P = Some D' /\
    soup_events D'
    = e1 ++ StartTag (lit "html") a
         :: StartTag (lit "head") [] :: script_events P
         ++ EndTag (lit "head") :: e2.
Proof.
  intros Hnohead (q & Hq)%soup_find_Some_iff; [|discriminate].
  assert (Hhead : soup_find (lit "head") D = None).
  { destruct (soup_find (lit "head") D) as [p|] eqn:Hp; [|reflexivity].
    assert (exists a, In (StartTag (lit "head") a) (soup_events D)) as (a & Ha).
    { apply soup_find_Some_iff; [discriminate | now exists p]. }
    now apply Hnohead in Ha. }
  destruct (soup_find_at _ _ _ html_not_document Hq) as (a & cs & Hat).
  destruct (soup_events_insert _ _ _ _ _ html_not_document Hat) as (e2 & He & Hins).
  exists (soup_events_before q D), a, e2,
    (tag_insert q 0 (Tag (lit "head") [] [script_tag P]) D).
  repeat split.
  - exact He.
  - apply (soup_find_first _ _ _ Hq).
  - unfold inject. rewrite Hhead, Hq. cbv zeta. f_equal.
    exact (tag_insert_nested q (script_tag P) D (lit "head") [] [] _ _ _ Hat).
  - rewrite Hins. reflexivity.
Qed.

(** ** Further properties of the size computation *)

Lemma utf8_char_scalar (c : N) :
  (exists bs, utf8_char c = Some bs) <-> is_scalar c.
Proof.
  unfold utf8_char, is_scalar.
  destruct (c <? 0x80) eqn:H1; [apply N.ltb_lt in H1; split; [lia | eauto]|].
  apply N.ltb_ge in H1.
  destruct (c <? 0x800) eqn:H2; [apply N.ltb_lt in H2; split; [lia | eauto]|].
  apply N.ltb_ge in H2.
  destruct ((0xD800 <=? c) && (c <=? 0xDFFF)) eqn:H3.
  { apply andb_true_iff in H3 as [H3 H4]. apply N.leb_le in H3, H4.
    split; [intros [bs Hbs]; discriminate | lia]. }
  assert (~ (0xD800 <= c <= 0xDFFF)) as Hns.
  { intros [Ha Hb]. apply N.leb_le in Ha, Hb. rewrite Ha, Hb in H3. discriminate. }
  destruct (c <? 0x10000) eqn:H4; [apply N.ltb_lt in H4; split; [lia | eauto]|].
  apply N.ltb_ge in H4.
  destruct (c <? 0x110000) eqn:H5.
  - apply N.ltb_lt in H5. split; [lia | eauto].
  - apply N.ltb_ge in H5. split; [intros [bs Hbs]; discriminate | lia].
Qed.

Lemma utf8_char_not_scalar (c : N) : utf8_char c = None <-> ~ is_scalar c.
Proof.
  rewrite <- utf8_char_scalar. destruct (utf8_char c) as [bs|].
  - split; [discriminate | intros H; exfalso; apply H; eauto].
  - split; [intros _ [bs Hbs]; discriminate | reflexivity].
Qed.

Lemma encode_from_inr (pos : nat) (s : str) :
  (exists bytes, encode_from pos s = inr bytes) <-> Forall is_scalar s.
Proof.
  revert pos. induction s as [|c s IH]; intros pos; cbn [encode_from].
  - split; [constructor | eauto].
  - destruct (utf8_char c) as [bs|] eqn:Hc.
    + assert (is_scalar c) as Hsc by (apply utf8_char_scalar; eauto).
      specialize (IH (S pos)). destruct (encode_from (S pos) s) as [e | rest].
      * split; [intros [b Hb]; discriminate|].
        intros Hall. apply Forall_cons in Hall as [_ Hall].
        apply IH in Hall as [b Hb]. discriminate.
      * split; [|eauto]. intros _. constructor; [exact Hsc|]. apply IH. eauto.
    + apply utf8_char_not_scalar in Hc. split; [intros [b Hb]; discriminate|].
      intros Hall. apply Forall_cons in Hall as [Hsc _]. contradiction.
Qed.

Lemma encode_from_inl (pos : nat) (s : str) (e : Exception) :
  encode_from pos s = inl e <->
  exists l c r,
    s = l ++ c :: r /\ Forall is_scalar l /\ ~ is_scalar c /\
    e = UnicodeEncodeError (pos + length l).
Proof.
  revert pos e. induction s as [|c s IH]; intros pos e; cbn [encode_from].
  - split; [discriminate | intros (l & c & r & Hs & _)]. destruct l; discriminate.
  - destruct (utf8_char c) as [bs|] eqn:Hc.
    + assert (is_scalar c) as Hsc by (apply utf8_char_scalar; eauto).
      specialize (IH (S pos)).
      assert (Hshift : forall l : list N,
                 (S pos + length l = pos + length (c :: l))%nat)
        by (intros l; cbn [length]; lia).
      destruct (encode_from (S pos) s) as [e' | rest].
      * split.
        -- intros [= <-].
           destruct (proj1 (IH e') eq_refl) as (l & c' & r & -> & Hl & Hc' & ->).
           exists (c :: l), c', r. repeat split; try assumption.
           ++ now constructor.
           ++ now rewrite Hshift.
        -- intros (l & c' & r & Hs & Hl & Hc' & ->).
           destruct l as [|x l]; cbn [app] in Hs; injection Hs as -> ->.
           ++ contradiction.
           ++ apply Forall_cons in Hl as [_ Hl]. rewrite <- Hshift.
              apply IH. exists l, c', r. repeat split; assumption.
      * split; [discriminate|].
        intros (l & c' & r & Hs & Hl & Hc' & ->).
        destruct l as [|x l]; cbn [app] in Hs; injection Hs as -> ->.
        -- contradiction.
        -- apply Forall_cons in Hl as [_ Hl]. exfalso.
           assert (@inr Exception (list N) rest
                   = inl (UnicodeEncodeError (S pos + length l))) as Heq.
           { apply IH. exists l, c', r. repeat split; assumption. }
           discriminate Heq.
    + apply utf8_char_not_scalar in Hc. split.
      * intros [= <-]. exists [], c, s. repeat split; try assumption; [constructor|].
        cbn [length]. f_equal. lia.
      * intros (l & c' & r & Hs & Hl & Hc' & ->).
        destruct l as [|x l]; cbn [app] in Hs; injection Hs as -> ->.
        -- cbn [length]. do 2 f_equal. lia.
        -- apply Forall_cons in Hl as [Hx _]. contradiction.
Qed.

(** X17: the text can be encoded for the size header exactly when all its
    code points are Unicode scalar values; otherwise the encoder raises at
    the first code point that is a surrogate, and reports its index. *)
Theorem encode_utf8_fails_at_first_surrogate (s : str) :
  ((exists bytes, encode_utf8 s = inr bytes) <-> Forall is_scalar s) /\
  (forall e,
     encode_utf8 s = inl e <->
     exists l c r,
       s = l ++ c :: r /\ Forall is_scalar l /\ ~ is_scalar c /\
       e = UnicodeEncodeError (length l)).
Proof.
  split; [apply encode_from_inr | intros e; apply (encode_from_inl 0)].
Qed.

Lemma lor_byte (a b : N) : a < 256 -> b < 256 -> N.lor a b < 256.
Proof.
  intros Ha Hb. destruct (N.eq_dec (N.lor a b) 0) as [-> | Hnz]; [lia|].
  change 256 with (2 ^ 8). apply N.log2_lt_pow2; [lia|].
  rewrite N.log2_lor.
  assert (forall x, x < 256 -> N.log2 x < 8) as Hlog.
  { intros x Hx. destruct (N.eq_dec x 0) as [-> | Hx0]; [reflexivity|].
    apply N.log2_lt_pow2; [lia | exact Hx]. }
  apply N.max_lub_lt; now apply Hlog.
Qed.

Lemma continuation_byte (x : N) : N.lor 0x80 (N.land x 0x3F) < 256.
Proof.
  apply lor_byte; [reflexivity|].
  pose proof (N.land_le_r x 0x3F). lia.
Qed.

Lemma shiftr_small (c k bound : N) :
  c < bound * 2 ^ k -> N.shiftr c k < bound.
Proof.
  intros H. rewrite N.shiftr_div_pow2.
  apply N.Div0.div_lt_upper_bound. lia.
Qed.

(** The bytes of one code point: one to four of them, each below 256. *)
Lemma utf8_char_bytes (c : N) (bs : list N) :
  utf8_char c = Some bs ->
  (1 <= length bs <= 4)%nat /\ Forall (fun b => b < 256) bs.
Proof.
  unfold utf8_char.
  destruct (c <? 0x80) eqn:H1.
  { apply N.ltb_lt in H1. intros [= <-]. split; [cbn; lia|].
    repeat constructor. lia. }
  destruct (c <? 0x800) eqn:H2.
  { apply N.ltb_lt in H2. intros [= <-]. split; [cbn; lia|].
    repeat constructor; [|apply continuation_byte].
    apply lor_byte; [reflexivity|].
    assert (N.shiftr c 6 < 32) by (apply shiftr_small; exact H2). lia. }
  destruct ((0xD800 <=? c) && (c <=? 0xDFFF)); [discriminate|].
  destruct (c <? 0x10000) eqn:H4.
  { apply N.ltb_lt in H4. intros [= <-]. split; [cbn; lia|].
    repeat constructor; try apply continuation_byte.
    apply lor_byte; [reflexivity|].
    assert (N.shiftr c 12 < 16) by (apply shiftr_small; exact H4). lia. }
  destruct (c <? 0x110000) eqn:H5; [|discriminate].
  apply N.ltb_lt in H5. intros [= <-]. split; [cbn; lia|].
  repeat constructor; try apply continuation_byte.
  apply lor_byte; [reflexivity|].
  assert (N.shiftr c 18 < 5) by (apply shiftr_small; cbn; lia). lia.
Qed.

Lemma encode_from_size (pos : nat) (s : str) (bytes : list N) :
  encode_from pos s = inr bytes ->
  (length s <= length bytes <= 4 * length s)%nat /\
  Forall (fun b => b < 256) bytes /\
  (is_ascii s -> bytes = s).
Proof.
  revert pos bytes. induction s as [|c s IH]; intros pos bytes; cbn [encode_from].
  - intros [= <-]. repeat split; [cbn; lia .. | constructor].
  - destruct (utf8_char c) as [bs|] eqn:Hc; [|discriminate].
    destruct (encode_from (S pos) s) as [e | rest] eqn:Hrest; [discriminate|].
    intros [= <-]. destruct (IH _ _ Hrest) as ((Hlo & Hhi) & Hbytes & Hascii).
    destruct (utf8_char_bytes _ _ Hc) as ((Hb1 & Hb4) & Hbs).
    rewrite length_app. cbn [length]. repeat split; try lia.
    + apply Forall_app. now split.
    + intros Ha. apply Forall_cons in Ha as [Hc80 Ha].
      unfold utf8_char in Hc. apply N.ltb_lt in Hc80. rewrite Hc80 in Hc.
      injection Hc as <-. cbn [app]. f_equal. now apply Hascii.
Qed.

(** X18: when the text can be encoded, every code point takes one to four
    bytes, so the size the handler declares is at least the number of
    characters of the text and at most four times that number; each byte is
    below 256, and a text of ASCII characters is its own encoding. *)
Theorem encode_utf8_size (s : str) (bytes : list N) :
  encode_utf8 s = inr bytes ->
  len s <= len bytes <= 4 * len s /\
  Forall (fun b => b < 256) bytes /\
  (is_ascii s -> bytes = s).
Proof.
  intros H. destruct (encode_from_size _ _ _ H) as ((Hlo & Hhi) & Hb & Ha).
  unfold len. repeat split; try assumption; lia.
Qed.

(** X19: when the call gets as far as serializing the mutated tree, the
    success record is logged exactly when every code point of the new text
    is a Unicode scalar value; otherwise the error record carries the
    encoder's exception with the index of the first surrogate. *)
Theorem unreconciled_iff_surrogate (self : YouTubeInterceptor) (flow : HTTPFlow)
    (D' : soup) :
  mutated_tree self flow = Some D' ->
  let url := pretty_url (request flow) in
  (In (INFO, Injected url) (logged self flow) <-> Forall is_scalar (soup_str D')) /\
  (forall k,
     In (ERROR, ErrorProcessing url (UnicodeEncodeError k)) (logged self flow)
     <-> exists l c r,
           soup_str D' = l ++ c :: r /\ length l = k /\
           Forall is_scalar l /\ ~ is_scalar c).
Proof.
  intros Hm url. pose proof (response_mutated _ _ _ Hm) as Hrun. cbv zeta in Hrun.
  fold url in Hrun. unfold logged. rewrite Hrun.
  pose proof (encode_from_inr 0 (soup_str D')) as Hok.
  pose proof (fun e => encode_from_inl 0 (soup_str D') e) as Hbad.
  fold (encode_utf8 (soup_str D')) in Hok, Hbad.
  destruct (encode_utf8 (soup_str D')) as [e | bytes]; cbn [snd w_log w_flow In].
  - assert (Hns : ~ Forall is_scalar (soup_str D')).
    { intros Hall. apply Hok in Hall as [b Hb]. discriminate Hb. }
    split.
    + split; [|contradiction]. intros [H | [H | []]]; discriminate H.
    + intros k. split.
      * intros [H | [H | []]]; [discriminate H|]. injection H as ->.
        destruct (proj1 (Hbad _) eq_refl) as (l & c & r & Hs & Hl & Hc & He).
        injection He as ->. now exists l, c, r.
      * intros (l & c & r & Hs & <- & Hl & Hc). right. left.
        assert (@inl Exception (list N) e = inl (UnicodeEncodeError (0 + length l)))
          as Heq by (apply Hbad; now exists l, c, r).
        injection Heq as ->. reflexivity.
  - assert (Hall : Forall is_scalar (soup_str D')) by (apply Hok; eauto).
    split.
    + split; [intros _; exact Hall | intros _; right; now left].
    + intros k. split.
      * intros [H | [H | []]]; discriminate H.
      * intros (l & c & r & Hs & _ & _ & Hc). exfalso. apply Hc.
        rewrite Hs in Hall. apply Forall_app in Hall as [_ Hall].
        now apply Forall_cons in Hall as [Hall _].
Qed.

(** X24: under any engine, the success record is logged exactly when
    [set_text] returned without raising and the new text could be encoded
    in UTF-8; the response delivered is then the one [set_text] left, with
    the size field assigned the number of UTF-8 bytes. *)
Theorem injected_under_engine (self : YouTubeInterceptor) (flow : HTTPFlow) :
  In (INFO, Injected (pretty_url (request flow))) (logged_engine self flow) <->
  exists D' bytes,
    mutated_tree self flow = Some D' /\
    let out := engine_set_text (soup_str D') (flow_response flow) in
    out.2 = None /\
    encode_utf8 (soup_str D') = inr bytes /\
    delivered_engine self flow
    = with_length (mkFlow (request flow) out.1) (len bytes).
Proof.
  unfold logged_engine, delivered_engine. split.
  - destruct (mutated_tree self flow) as [D'|] eqn:Hm.
    + pose proof (response_engine_mutated _ _ _ Hm) as Hrun. cbv zeta in Hrun.
      rewrite Hrun.
      destruct (engine_set_text (soup_str D') (flow_response flow)).2 as [e|] eqn:Ho.
      * cbn [snd w_log In]. intros [H | [H | []]]; discriminate H.
      * destruct (encode_utf8 (soup_str D')) as [e | bytes] eqn:He.
        -- cbn [snd w_log In]. intros [H | [H | []]]; discriminate H.
        -- intros _. exists D', bytes. cbv zeta. rewrite Ho.
           repeat split. exact He.
    + rewrite (response_engine_unmutated _ _ Hm).
      destruct (response_unmutated_log _ _ Hm) as (c & l & Hrun & Hno).
      rewrite Hrun. cbn [snd w_log]. intros Hin. now apply Hno in Hin.
  - intros (D' & bytes & Hm & Ho & He & _).
    pose proof (response_engine_mutated _ _ _ Hm) as Hrun. cbv zeta in Hrun.
    rewrite Hrun, Ho, He. cbn [snd w_log In]. right. now left.
Qed.

(** X23: once the handler has called [set_text], a fault restores nothing.
    When [set_text] raises, or when the new text cannot be encoded in UTF-8
    for the size header, the call ends normally, the log holds the
    interception record and one error record with the exception, and the
    response delivered is the response as [set_text] left it. *)
Theorem fault_after_set_text_is_logged (self : YouTubeInterceptor) (flow : HTTPFlow)
    (D' : soup) (e : Exception) :
  mutated_tree self flow = Some D' ->
  let url := pretty_url (request flow) in
  let out := engine_set_text (soup_str D') (flow_response flow) in
  out.2 = Some e \/ (out.2 = None /\ encode_utf8 (soup_str D') = inl e) ->
  response_engine self flow
  = (Normal tt,
     mkWorld (mkFlow (request flow) out.1)
       [(INFO, Intercepting url); (ERROR, ErrorProcessing url e)]).
Proof.
  intros Hm url out Hfault.
  pose proof (response_engine_mutated _ _ _ Hm) as Hrun. cbv zeta in Hrun.
  fold url out in Hrun. rewrite Hrun.
  destruct Hfault as [-> | [-> ->]]; reflexivity.
Qed.

(** ** Properties of the launcher script *)

Ltac run_cli :=
  cbv beta iota zeta delta
    [main install_dependencies run_mitmdump run_mitmweb launch_proxy
     subprocess_run subprocess_check_call cli_try cli_bind cli_pure print
     launched printed fst snd negb].

Lemma pip_not_proxy (m : Machine) (tool : str) : pip_command m <> proxy_command m tool.
Proof. discriminate. Qed.

Lemma mitmdump_not_mitmweb (m : Machine) :
  proxy_command m (lit "mitmdump") <> proxy_command m (lit "mitmweb").
Proof. discriminate. Qed.

(** What [install_dependencies] launches, whatever [pip] does. *)
Lemma install_dependencies_launched (m : Machine) :
  launched (install_dependencies m >>* cli_pure tt) = [pip_command m].
Proof.
  run_cli. destruct (spawn m (pip_command m)) as [[| | c | msg] | code];
    try reflexivity.
  destruct (Z.eqb code 0); reflexivity.
Qed.

Lemma run_proxy_launched (m : Machine) :
  launched (run_mitmdump m)
  = (if addon_exists m then [proxy_command m (lit "mitmdump")] else []) /\
  launched (run_mitmweb m)
  = (if addon_exists m then [proxy_command m (lit "mitmweb")] else []).
Proof.
  split; run_cli; destruct (addon_exists m); try reflexivity.
  - destruct (spawn m (proxy_command m (lit "mitmdump"))) as [[| | c | msg] | code];
      reflexivity.
  - destruct (spawn m (proxy_command m (lit "mitmweb"))) as [[| | c | msg] | code];
      reflexivity.
Qed.

Lemma launched_prints (lines : list str) :
  launched (map Print lines, @inr BaseException unit tt) = [].
Proof.
  unfold launched. cbn [fst]. induction lines as [|l lines IH]; [reflexivity | exact IH].
Qed.

(** The programs [main] launches, by command. *)
Lemma main_launched (m : Machine) (argv : list str) :
  launched (main m argv)
  = match command_of argv with
    | None => []
    | Some c =>
        if str_eqb c (lit "install") then [pip_command m]
        else if str_eqb c (lit "mitmdump") then
          if addon_exists m then [proxy_command m (lit "mitmdump")] else []
        else if str_eqb c (lit "mitmweb") then
          if addon_exists m then [proxy_command m (lit "mitmweb")] else []
        else []
    end.
Proof.
  destruct (run_proxy_launched m) as [Hdump Hweb].
  destruct argv as [|prog [|arg rest]]; cbn [command_of main];
    [apply launched_prints | apply launched_prints |].
  destruct (str_eqb (lower arg) (lit "install"));
    [apply install_dependencies_launched|].
  destruct (str_eqb (lower arg) (lit "mitmdump")); [exact Hdump|].
  destruct (str_eqb (lower arg) (lit "mitmweb")); [exact Hweb|].
  reflexivity.
Qed.

Ltac launch_leaf :=
  repeat match goal with
         | |- _ /\ _ => split
         | |- _ <-> _ => split
         | |- _ -> _ => intros ?
         | H : _ /\ _ |- _ => destruct H
         end;
  try congruence;
  first [ left; reflexivity
        | right; left; reflexivity
        | right; right; left; reflexivity
        | right; right; right; reflexivity ].

(** X20: [main] launches at most one program.  It launches [pip] exactly
    when the command is [install]; it launches [mitmdump] (or [mitmweb])
    exactly when that is the command and the addon file exists; without a
    command, with another command, or without the addon file it launches
    nothing. *)
Theorem main_launches (m : Machine) (argv : list str) :
  (launched (main m argv) = [pip_command m]
   <-> command_of argv = Some (lit "install")) /\
  (launched (main m argv) = [proxy_command m (lit "mitmdump")]
   <-> command_of argv = Some (lit "mitmdump") /\ addon_exists m = true) /\
  (launched (main m argv) = [proxy_command m (lit "mitmweb")]
   <-> command_of argv = Some (lit "mitmweb") /\ addon_exists m = true) /\
  (launched (main m argv) = [] \/
   launched (main m argv) = [pip_command m] \/
   launched (main m argv) = [proxy_command m (lit "mitmdump")] \/
   launched (main m argv) = [proxy_command m (lit "mitmweb")]).
Proof.
  rewrite main_launched.
  pose proof (pip_not_proxy m (lit "mitmdump")) as Hpd.
  pose proof (pip_not_proxy m (lit "mitmweb")) as Hpw.
  pose proof (mitmdump_not_mitmweb m) as Hdw.
  assert (lit "install" <> lit "mitmdump") as Hid by discriminate.
  assert (lit "install" <> lit "mitmweb") as Hiw by discriminate.
  assert (lit "mitmdump" <> lit "mitmweb") as Hmw by discriminate.
  destruct (command_of argv) as [c|]; [|launch_leaf].
  destruct (str_eqb c (lit "install")) eqn:Hi;
    [apply str_eqb_eq in Hi; launch_leaf | apply str_eqb_false in Hi].
  destruct (str_eqb c (lit "mitmdump")) eqn:Hd;
    [apply str_eqb_eq in Hd; destruct (addon_exists m); launch_leaf
    | apply str_eqb_false in Hd].
  destruct (str_eqb c (lit "mitmweb")) eqn:Hw;
    [apply str_eqb_eq in Hw; destruct (addon_exists m); launch_leaf
    | apply str_eqb_false in Hw].
  launch_leaf.
Qed.

(** What a proxy launch makes of the outcome of the program. *)
Lemma launch_proxy_outcome (m : Machine) (tool : str) :
  (launch_proxy m tool).2
  = match spawn m (proxy_command m tool) with
    | inr _ => inr tt
    | inl KeyboardInterrupt => inr tt
    | inl FileNotFoundError => inr tt
    | inl e => inl e
    end.
Proof.
  run_cli. destruct (spawn m (proxy_command m tool)) as [[| | c | msg] | code];
    reflexivity.
Qed.

Lemma install_dependencies_outcome (m : Machine) :
  (install_dependencies m).2
  = match spawn m (pip_command m) with
    | inr code => inr (Z.eqb code 0)
    | inl (CalledProcessError _) => inr false
    | inl e => inl e
    end.
Proof.
  run_cli. destruct (spawn m (pip_command m)) as [[| | c | msg] | code];
    try reflexivity.
  destruct (Z.eqb code 0); reflexivity.
Qed.

(** X21: [install_dependencies] returns [True] exactly when [pip] ends with
    exit status 0, and [False] exactly when [pip] ends with another status
    or the launch raises [CalledProcessError]; any other exception of the
    launch leaves the function. *)
Theorem install_dependencies_result (m : Machine) :
  ((install_dependencies m).2 = inr true
   <-> spawn m (pip_command m) = inr 0%Z) /\
  ((install_dependencies m).2 = inr false
   <-> (exists code, code <> 0%Z /\ spawn m (pip_command m) = inr code) \/
       (exists code, spawn m (pip_command m) = inl (CalledProcessError code))) /\
  (forall e,
     (install_dependencies m).2 = inl e
     <-> spawn m (pip_command m) = inl e /\ forall code, e <> CalledProcessError code).
Proof.
  rewrite install_dependencies_outcome.
  destruct (spawn m (pip_command m)) as [[| | c | msg] | code];
    [| | | | destruct (Z.eqb_spec code 0) as [-> | Hcode]];
    repeat match goal with
           | |- _ /\ _ => split
           | |- _ <-> _ => split
           | |- forall _, _ => intro
           | H : _ /\ _ |- _ => destruct H
           | H : _ \/ _ |- _ => destruct H
           | H : exists _, _ |- _ => destruct H
           | H : forall code, CalledProcessError ?c <> CalledProcessError code |- _ =>
               exfalso; apply (H c); reflexivity
           end;
    try congruence;
    first [ left; eexists; split; [eassumption | reflexivity]
          | right; eexists; reflexivity ].
Qed.

Lemma print_then_outcome {A} (line : str) (k : Cli A) :
  (print line >>* k).2 = k.2.
Proof. unfold cli_bind, print. now destruct k. Qed.

Lemma then_unit_outcome {A} (c : Cli A) :
  (c >>* cli_pure tt).2
  = match c.2 with
    | inl e => inl e
    | inr _ => inr tt
    end.
Proof. unfold cli_bind, cli_pure. now destruct c as [out [e | a]]. Qed.

(** How [main] ends, by command. *)
Lemma main_outcome (m : Machine) (argv : list str) :
  (main m argv).2
  = match command_of argv with
    | None => inr tt
    | Some c =>
        if str_eqb c (lit "install") then
          match spawn m (pip_command m) with
          | inr _ => inr tt
          | inl (CalledProcessError _) => inr tt
          | inl e => inl e
          end
        else if str_eqb c (lit "mitmdump") then
          if addon_exists m then (launch_proxy m (lit "mitmdump")).2 else inr tt
        else if str_eqb c (lit "mitmweb") then
          if addon_exists m then (launch_proxy m (lit "mitmweb")).2 else inr tt
        else inr tt
    end.
Proof.
  destruct argv as [|prog [|arg rest]]; cbn [command_of main]; try reflexivity.
  destruct (str_eqb (lower arg) (lit "install")).
  { rewrite then_unit_outcome, install_dependencies_outcome.
    destruct (spawn m (pip_command m)) as [[| | c | msg] | code]; reflexivity. }
  destruct (str_eqb (lower arg) (lit "mitmdump")).
  { unfold run_mitmdump. destruct (addon_exists m); cbn [negb]; [|reflexivity].
    now rewrite !print_then_outcome. }
  destruct (str_eqb (lower arg) (lit "mitmweb")); [|reflexivity].
  unfold run_mitmweb. destruct (addon_exists m); cbn [negb]; [|reflexivity].
  now rewrite !print_then_outcome.
Qed.

(** X22: [main] ends in an exception only when the program it launched
    could not be run or waited for, and the exception is one the script has
    no clause for: for [install], anything but [CalledProcessError]; for
    [mitmdump] and [mitmweb], anything but [KeyboardInterrupt] and
    [FileNotFoundError].  In particular the exit status of the program
    never makes [main] fail. *)
Theorem main_raises_only_unhandled (m : Machine) (argv : list str)
    (e : BaseException) :
  (main m argv).2 = inl e <->
  (command_of argv = Some (lit "install") /\
   spawn m (pip_command m) = inl e /\
   forall code, e <> CalledProcessError code) \/
  (exists tool,
     (tool = lit "mitmdump" \/ tool = lit "mitmweb") /\
     command_of argv = Some tool /\
     addon_exists m = true /\
     spawn m (proxy_command m tool) = inl e /\
     e <> KeyboardInterrupt /\ e <> FileNotFoundError).
Proof.
  rewrite main_outcome.
  assert (lit "install" <> lit "mitmdump") as Hid by discriminate.
  assert (lit "install" <> lit "mitmweb") as Hiw by discriminate.
  assert (lit "mitmdump" <> lit "mitmweb") as Hmw by discriminate.
  assert (Hproxy : forall tool,
             (launch_proxy m tool).2 = inl e <->
             spawn m (proxy_command m tool) = inl e /\
             e <> KeyboardInterrupt /\ e <> FileNotFoundError).
  { intros tool. rewrite launch_proxy_outcome.
    destruct (spawn m (proxy_command m tool)) as [[| | c | msg] | code];
      split; try discriminate; try (intros (H & H1 & H2); congruence);
      intros H; injection H as <-; repeat split; discriminate. }
  assert (Hpip : match spawn m (pip_command m) with
                 | inr _ => inr tt
                 | inl (CalledProcessError _) => inr tt
                 | inl e0 => inl e0
                 end = @inl BaseException unit e <->
                 spawn m (pip_command m) = inl e /\
                 forall code, e <> CalledProcessError code).
  { destruct (spawn m (pip_command m)) as [[| | c | msg] | code];
      split; try discriminate;
      try (intros H; injection H as <-; split; [reflexivity | discriminate]);
      try (intros [H _]; injection H as <-; reflexivity);
      try (intros [H _]; discriminate H).
    intros [H Hne]. exfalso. injection H as <-. now apply (Hne c). }
  destruct (command_of argv) as [c|].
  2:{ split; [discriminate|].
      intros [(H & _) | (tool & _ & H & _)]; discriminate H. }
  destruct (str_eqb c (lit "install")) eqn:Hi.
  { apply str_eqb_eq in Hi as ->. rewrite Hpip. split.
    - intros H. left. now split.
    - intros [(_ & H) | (tool & [-> | ->] & H & _)]; [exact H | congruence ..]. }
  apply str_eqb_false in Hi.
  destruct (str_eqb c (lit "mitmdump")) eqn:Hd.
  { apply str_eqb_eq in Hd as ->. destruct (addon_exists m) eqn:Ha.
    - rewrite Hproxy. split.
      + intros H. right. exists (lit "mitmdump"). repeat split; tauto.
      + intros [(H & _) | (tool & [-> | ->] & H & _ & H')]; try congruence; tauto.
    - split; [discriminate|].
      intros [(H & _) | (tool & _ & _ & H & _)]; congruence. }
  apply str_eqb_false in Hd.
  destruct (str_eqb c (lit "mitmweb")) eqn:Hw.
  { apply str_eqb_eq in Hw as ->. destruct (addon_exists m) eqn:Ha.
    - rewrite Hproxy. split.
      + intros H. right. exists (lit "mitmweb"). repeat split; tauto.
      + intros [(H & _) | (tool & [-> | ->] & H & _ & H')]; try congruence; tauto.
    - split; [discriminate|].
      intros [(H & _) | (tool & _ & _ & H & _)]; congruence. }
  apply str_eqb_false in Hw. split; [discriminate|].
  intros [(H & _) | (tool & [-> | ->] & H & _)]; congruence.
Qed.

End Interceptor.

(** ** The claims on examples

    The parameters of the handler are instantiated with [ascii_lower],
    [mini_parse] and [mini_decode]. *)

Lemma mini_parse_examples :
  mini_parse (lit "<html><body>hi</body></html>") = inr page_without_head /\
  mini_parse (lit "<html><head><title>t</title></head><body>hi</body></html>")
  = inr page_with_head /\
  mini_parse (lit "<p>x</p>") = inr fragment.
Proof. repeat split; reflexivity. Qed.

Lemma inject_head_first_child_witness :
  soup_find (lit "head") page_with_head = Some [0; 0]%nat /\
  exists a cs D',
    inject page_with_head (lit " f(); ") = Some D' /\
    get_at [0; 0]%nat page_with_head = Some (Tag (lit "head") a cs) /\
    soup_find (lit "head") D' = Some [0; 0]%nat /\
    get_at [0; 0]%nat D'
    = Some (Tag (lit "head") a
              (Tag (lit "script") [] [NavigableString PlainString (strip (lit " f(); "))]
               :: cs)) /\
    script_text_at [0; 0]%nat D' = Some (strip (lit " f(); ")) /\
    trimmed (lit " f(); ") (strip (lit " f(); ")).
Proof.
  split; [reflexivity|].
  apply (inject_head_first_child page_with_head (lit " f(); ") [0; 0]%nat).
  reflexivity.
Defined.

Lemma inject_synthesizes_head_witness :
  soup_find (lit "head") page_without_head = None /\
  soup_find (lit "html") page_without_head = Some [0%nat] /\
  exists a cs D',
    inject page_without_head (lit " f(); ") = Some D' /\
    get_at [0%nat] page_without_head = Some (Tag (lit "html") a cs) /\
    get_at [0%nat] D'
    = Some (Tag (lit "html") a
              (Tag (lit "head") []
                 [Tag (lit "script") []
                    [NavigableString PlainString (strip (lit " f(); "))]]
               :: cs)) /\
    soup_find (lit "head") D' = Some ([0%nat] ++ [0%nat]) /\
    script_text_at ([0%nat] ++ [0%nat]) D' = Some (strip (lit " f(); ")).
Proof.
  split; [reflexivity|]. split; [reflexivity|].
  apply (inject_synthesizes_head page_without_head (lit " f(); ") [0%nat]);
    reflexivity.
Defined.


Lemma no_skeleton_is_noop_witness :
  inject fragment (injection_script YouTubeInterceptor_init) = None /\
  response ascii_lower mini_parse mini_decode YouTubeInterceptor_init fragment_flow
  = (Returned,
     mkWorld fragment_flow
       [(INFO, Intercepting (pretty_url (request fragment_flow)));
        (WARNING, NoHeadOrHtml)]) /\
  body (flow_response
          (delivered ascii_lower mini_parse mini_decode YouTubeInterceptor_init
             fragment_flow))
  = BodyText (lit "<p>x</p>").
Proof.
  apply (no_skeleton_is_noop ascii_lower mini_parse mini_decode
           YouTubeInterceptor_init fragment_flow (lit "<p>x</p>") fragment);
    try reflexivity.
  discriminate.
Defined.

(** Under the engine [text_only] the handler is [response]. *)
Lemma response_engine_text_only (lower : str -> str)
    (BeautifulSoup : str -> Exception + soup) (soup_str : soup -> str)
    (self : YouTubeInterceptor) (flow : HTTPFlow) :
  response_engine lower BeautifulSoup soup_str text_only self flow
  = response lower BeautifulSoup soup_str self flow.
Proof. reflexivity. Qed.

Lemma response_contains_faults_witness :
  passes_through ascii_lower mini_parse YouTubeInterceptor_init google_flow /\
  delivered_engine ascii_lower mini_parse mini_decode
    (set_text_in ascii_lower encode_raw_unicode_escape text_only)
    YouTubeInterceptor_init google_flow
  = google_flow.
Proof.
  assert (H : passes_through ascii_lower mini_parse YouTubeInterceptor_init google_flow)
    by (apply host_not_eligible; reflexivity).
  split; [exact H|].
  exact (proj1 (proj2 (response_contains_faults ascii_lower mini_parse mini_decode
                         (set_text_in ascii_lower encode_raw_unicode_escape text_only)
                         YouTubeInterceptor_init google_flow)) H).
Defined.

(** C1 as stated fails on a page that holds a lone surrogate in a charset
    that can encode it: the engine replaces the body and assigns the size
    field, the handler's own encoding of the new text in UTF-8 raises, the
    exception is caught and logged as an error, and the body and the headers
    delivered are not those received.  The codec of the charset encodes
    every text, so the last argument of [set_text_in] plays no part. *)
Lemma response_fault_after_replacement :
  let engine := set_text_in ascii_lower encode_raw_unicode_escape text_only in
  let r := response_engine ascii_lower mini_parse mini_decode engine
             YouTubeInterceptor_init escape_flow in
  let url := pretty_url (request escape_flow) in
  r.1 = Normal tt /\
  w_log r.2 = [(INFO, Intercepting url);
               (ERROR, ErrorProcessing url (UnicodeEncodeError 1648))] /\
  body (flow_response (w_flow r.2)) = BodyText (mini_decode surrogate_page_injected) /\
  body (flow_response (w_flow r.2)) <> body (flow_response escape_flow) /\
  headers (flow_response (w_flow r.2))
  = headers (flow_response escape_flow) ++ [(lit "content-length", lit "1661")] /\
  headers (flow_response (w_flow r.2)) <> headers (flow_response escape_flow).
Proof.
  vm_compute. repeat split; discriminate.
Qed.

Lemma latin1_flow_mutated :
  mutated_tree ascii_lower mini_parse YouTubeInterceptor_init latin1_flow
  = Some latin1_page_injected.
Proof. vm_compute. reflexivity. Qed.

Lemma latin1_page_encoded :
  encode_utf8 (mini_decode latin1_page_injected) = inr latin1_page_utf8.
Proof. vm_compute. reflexivity. Qed.

(** C2 fails on a page in ISO 8859-1 with one character outside ASCII: the
    injection succeeds, the engine sends the new body in the charset of the
    response, 1685 bytes, and records that number in the size field; the
    handler then assigns the size field the length of the UTF-8 encoding,
    1686. *)
Theorem content_length_disagrees_with_wire :
  let engine := set_text_in ascii_lower encode_latin1 text_only in
  let flow' := delivered_engine ascii_lower mini_parse mini_decode engine
                 YouTubeInterceptor_init latin1_flow in
  let url := pretty_url (request latin1_flow) in
  let text := mini_decode latin1_page_injected in
  logged_engine ascii_lower mini_parse mini_decode engine
    YouTubeInterceptor_init latin1_flow
  = [(INFO, Intercepting url); (INFO, Injected url)] /\
  body (flow_response flow') = BodyText text /\
  encode_latin1 text = inr latin1_page_wire /\
  len latin1_page_wire = 1685 /\
  headers (engine text (flow_response latin1_flow)).1
  = [(lit "Content-Type", lit "text/html; charset=iso-8859-1");
     (lit "content-length", lit "1685")] /\
  headers (flow_response flow')
  = [(lit "Content-Type", lit "text/html; charset=iso-8859-1");
     (lit "content-length", lit "1686")].
Proof.
  cbv zeta. split; [|split; [|split; [|split; [|split]]]]; vm_compute; reflexivity.
Qed.

Lemma is_youtube_domain_iff_witness :
  (forall s, is_ascii s -> ascii_lower s = ascii_lower s) /\
  is_youtube_domain ascii_lower YouTubeInterceptor_init (Some (lit "YOUTUBE.COM")) = true /\
  is_youtube_domain ascii_lower YouTubeInterceptor_init (Some (lit "M.YouTube.Com"))
  = is_youtube_domain ascii_lower YouTubeInterceptor_init (Some (lit "m.youtube.com")).
Proof.
  pose proof (is_youtube_domain_iff ascii_lower (fun s _ => eq_refl))
    as (_ & Hcase & Hupper & _).
  split; [reflexivity|]. split; [exact Hupper|].
  apply Hcase. reflexivity.
Defined.

Lemma is_html_response_iff_witness :
  (forall s, is_ascii s -> ascii_lower s = ascii_lower s) /\
  List.find (key_matches ascii_lower (lit "content-type"))
    (headers (flow_response youtube_flow))
  = Some (lit "Content-Type", lit "text/html; charset=utf-8") /\
  (is_html_response ascii_lower YouTubeInterceptor_init (flow_response youtube_flow) = true
   <-> substring (lit "text/html") (ascii_lower (lit "text/html; charset=utf-8"))).
Proof.
  split; [reflexivity|]. split; [reflexivity|].
  apply (proj1 (is_html_response_iff ascii_lower (fun s _ => eq_refl)
                  YouTubeInterceptor_init)
           (flow_response youtube_flow) (lit "Content-Type")).
  reflexivity.
Defined.

(** ** The round trip through the instance of the parsing library

    The tree [mini_parse] builds has the events [emit] lists for the tokens
    of the text, [mini_decode] writes those events with [render], and the
    lexer reads the text back into tokens that show the injected script
    right after the first start tag called head. *)


(** *** The tree builder in events *)






(** *** The serializer in events *)






(** *** The tokens the lexer produces *)


















(** *** Reading back what the serializer wrote *)




















(** *** From the events back to the tree *)





(** *** The injected script, written and read back *)
















(** ** Further properties on examples *)

Lemma eligible_host_has_case_variant_witness :
  is_ascii (lit "Music.YouTube.COM") /\
  is_youtube_domain ascii_lower YouTubeInterceptor_init (Some (lit "Music.YouTube.COM"))
  = true.
Proof.
  assert (Ha : is_ascii (lit "Music.YouTube.COM")) by (apply is_ascii_check; reflexivity).
  split; [exact Ha|].
  apply (eligible_host_has_case_variant ascii_lower (fun s _ => eq_refl)
           (lit "Music.YouTube.COM") Ha).
  exists (lit "Music."), (lit "YouTube.COM"), []. split; reflexivity.
Defined.

Lemma eligible_host_inside_host_witness :
  is_ascii (lit "notyoutube.com.evil.test") /\
  substring (lit "youtube.com") (lit "notyoutube.com.evil.test") /\
  is_youtube_domain ascii_lower YouTubeInterceptor_init
    (Some (lit "notyoutube.com.evil.test")) = true.
Proof.
  assert (Ha : is_ascii (lit "notyoutube.com.evil.test"))
    by (apply is_ascii_check; reflexivity).
  assert (Hs : substring (lit "youtube.com") (lit "notyoutube.com.evil.test"))
    by (exists (lit "not"), (lit ".evil.test"); reflexivity).
  split; [exact Ha|]. split; [exact Hs|].
  apply (eligible_host_inside_host ascii_lower (fun s _ => eq_refl)
           (lit "youtube.com") (lit "notyoutube.com.evil.test") Ha Hs).
  reflexivity.
Defined.

Lemma html_response_has_case_variant_witness :
  is_ascii (lit "TEXT/HTML; Charset=UTF-8") /\
  is_html_response ascii_lower YouTubeInterceptor_init
    (mkResponse [(lit "Content-Type", lit "TEXT/HTML; Charset=UTF-8")] BodyNone)
  = true.
Proof.
  assert (Ha : is_ascii (lit "TEXT/HTML; Charset=UTF-8"))
    by (apply is_ascii_check; reflexivity).
  split; [exact Ha|].
  apply (html_response_has_case_variant ascii_lower (fun s _ => eq_refl)
           YouTubeInterceptor_init
           (mkResponse [(lit "Content-Type", lit "TEXT/HTML; Charset=UTF-8")] BodyNone)
           (lit "Content-Type") (lit "TEXT/HTML; Charset=UTF-8") eq_refl Ha).
  exists [], (lit "TEXT/HTML"), (lit "; Charset=UTF-8"). split; reflexivity.
Defined.

Lemma ineligible_exits_are_silent_witness :
  response ascii_lower mini_parse mini_decode YouTubeInterceptor_init google_flow
  = (Returned, mkWorld google_flow []).
Proof.
  apply (ineligible_exits_are_silent ascii_lower mini_parse mini_decode
           YouTubeInterceptor_init google_flow).
  left. reflexivity.
Defined.

Lemma text_fault_is_logged_witness :
  response ascii_lower mini_parse mini_decode YouTubeInterceptor_init undecodable_flow
  = (Normal tt,
     mkWorld undecodable_flow
       [(ERROR, ErrorProcessing (lit "https://www.youtube.com/")
                  (LibraryError (lit "invalid start byte")))]).
Proof.
  apply (text_fault_is_logged ascii_lower mini_parse mini_decode
           YouTubeInterceptor_init undecodable_flow
           (LibraryError (lit "invalid start byte")));
    reflexivity.
Defined.

Lemma parse_failure_is_logged_witness :
  response ascii_lower rejecting_parser mini_decode YouTubeInterceptor_init youtube_flow
  = (Returned,
     mkWorld youtube_flow
       [(INFO, Intercepting (pretty_url (request youtube_flow)));
        (ERROR, FailedToParse (LibraryError (lit "cannot parse")))]).
Proof.
  apply (parse_failure_is_logged ascii_lower rejecting_parser mini_decode
           YouTubeInterceptor_init youtube_flow
           (lit "<html><body>hi</body></html>") (LibraryError (lit "cannot parse")));
    try reflexivity.
  discriminate.
Defined.

Lemma youtube_flow_mutated :
  mutated_tree ascii_lower mini_parse YouTubeInterceptor_init youtube_flow
  = Some youtube_page_injected.
Proof. vm_compute. reflexivity. Qed.

Lemma youtube_page_encoded :
  encode_utf8 (mini_decode youtube_page_injected) = inr youtube_page_bytes.
Proof. vm_compute. reflexivity. Qed.

Lemma injected_logged_iff_witness :
  In (INFO, Injected (pretty_url (request youtube_flow)))
    (logged ascii_lower mini_parse mini_decode YouTubeInterceptor_init youtube_flow).
Proof.
  apply (injected_logged_iff ascii_lower mini_parse mini_decode
           YouTubeInterceptor_init youtube_flow).
  exists youtube_page_injected, youtube_page_bytes.
  split; [exact youtube_flow_mutated|]. split; [exact youtube_page_encoded|].
  vm_compute. reflexivity.
Defined.

Lemma reconciled_length_is_unique_witness :
  exists name,
    List.filter (key_matches ascii_lower (lit "content-length"))
      (headers (flow_response
                  (delivered ascii_lower mini_parse mini_decode
                     YouTubeInterceptor_init youtube_flow)))
    = [(name, str_of_int (len youtube_page_bytes))].
Proof.
  exact (reconciled_length_is_unique ascii_lower mini_parse mini_decode
           YouTubeInterceptor_init youtube_flow youtube_page_injected
           youtube_page_bytes youtube_flow_mutated youtube_page_encoded).
Defined.

Lemma response_keeps_eligibility_witness :
  is_youtube_domain ascii_lower YouTubeInterceptor_init
    (pretty_host (request (delivered ascii_lower mini_parse mini_decode
                             YouTubeInterceptor_init youtube_flow)))
  = is_youtube_domain ascii_lower YouTubeInterceptor_init
      (pretty_host (request youtube_flow)) /\
  is_html_response ascii_lower YouTubeInterceptor_init
    (flow_response (delivered ascii_lower mini_parse mini_decode
                      YouTubeInterceptor_init youtube_flow))
  = is_html_response ascii_lower YouTubeInterceptor_init (flow_response youtube_flow).
Proof.
  exact (response_keeps_eligibility ascii_lower mini_parse mini_decode
           (fun s _ => eq_refl) YouTubeInterceptor_init youtube_flow).
Defined.

Lemma youtube_page_round_trip :
  mini_parse (mini_decode youtube_page_injected) = inr youtube_page_injected.
Proof. vm_compute. reflexivity. Qed.

Lemma response_twice_duplicates_witness :
  let P := injection_script YouTubeInterceptor_init in
  let flow1 := delivered ascii_lower mini_parse mini_decode YouTubeInterceptor_init
                 youtube_flow in
  exists head a cs D'',
    get_at head youtube_page_injected
    = Some (Tag (lit "head") a (script_tag P :: cs)) /\
    mutated_tree ascii_lower mini_parse YouTubeInterceptor_init flow1 = Some D'' /\
    get_at head D''
    = Some (Tag (lit "head") a (script_tag P :: script_tag P :: cs)) /\
    body (flow_response
            (delivered ascii_lower mini_parse mini_decode YouTubeInterceptor_init flow1))
    = BodyText (mini_decode D'').
Proof.
  apply (response_twice_duplicates ascii_lower mini_parse mini_decode
           (fun s _ => eq_refl) YouTubeInterceptor_init youtube_flow
           youtube_page_injected youtube_flow_mutated).
  - vm_compute. discriminate.
  - exact youtube_page_round_trip.
Defined.

Lemma inject_succeeds_iff_witness :
  exists D', inject page_without_head (lit " f(); ") = Some D'.
Proof.
  apply (inject_succeeds_iff page_without_head (lit " f(); ")).
  right. exists []. left. reflexivity.
Defined.

Lemma inject_after_head_start_witness :
  exists e1 a e2 D',
    soup_events page_with_head = e1 ++ StartTag (lit "head") a :: e2 /\
    (forall a', ~ In (StartTag (lit "head") a') e1) /\
    inject page_with_head (lit " f(); ") = Some D' /\
    soup_events D' = e1 ++ StartTag (lit "head") a :: script_events (lit " f(); ") ++ e2.
Proof.
  apply (inject_after_head_start page_with_head (lit " f(); ")).
  exists []. right. left. reflexivity.
Defined.

Lemma inject_inserts_complete_head_witness :
  inject page_without_head (lit " f(); ")
  = Some (tag_insert [0%nat] 0 (Tag (lit "head") [] [script_tag (lit " f(); ")])
            page_without_head).
Proof.
  apply (inject_inserts_complete_head page_without_head (lit " f(); ") [0%nat]);
    reflexivity.
Defined.

Lemma inject_after_html_start_witness :
  exists e1 a e2 D',
    soup_events page_without_head = e1 ++ StartTag (lit "html") a :: e2 /\
    (forall a', ~ In (StartTag (lit "html") a') e1) /\
    inject page_without_head (lit " f(); ") = Some D' /\
    soup_events D'
    = e1 ++ StartTag (lit "html") a
         :: StartTag (lit "head") [] :: script_events (lit " f(); ")
         ++ EndTag (lit "head") :: e2.
Proof.
  apply (inject_after_html_start page_without_head (lit " f(); ")).
  - intros a Hin. cbn in Hin.
    repeat match goal with
           | H : _ \/ _ |- _ => destruct H
           | H : False |- _ => destruct H
           | H : _ = StartTag _ _ |- _ => discriminate H
           end.
  - exists []. left. reflexivity.
Defined.

Lemma encode_utf8_size_witness :
  encode_utf8 [0x68; 0xE9; 0x20AC; 0x1F600] =
    inr [0x68; 0xC3; 0xA9; 0xE2; 0x82; 0xAC; 0xF0; 0x9F; 0x98; 0x80] /\
  len [0x68; 0xE9; 0x20AC; 0x1F600]
  <= len [0x68; 0xC3; 0xA9; 0xE2; 0x82; 0xAC; 0xF0; 0x9F; 0x98; 0x80]
  <= 4 * len [0x68; 0xE9; 0x20AC; 0x1F600].
Proof.
  split; [reflexivity|].
  apply (encode_utf8_size [0x68; 0xE9; 0x20AC; 0x1F600]
           [0x68; 0xC3; 0xA9; 0xE2; 0x82; 0xAC; 0xF0; 0x9F; 0x98; 0x80]).
  reflexivity.
Defined.

Lemma main_launches_witness :
  command_of ascii_lower [lit "example_usage.py"; lit "MitmDump"] = Some (lit "mitmdump") /\
  launched (main ascii_lower (example_machine true (inr 0%Z))
              [lit "example_usage.py"; lit "MitmDump"])
  = [proxy_command (example_machine true (inr 0%Z)) (lit "mitmdump")].
Proof.
  split; [reflexivity|].
  apply (main_launches ascii_lower (example_machine true (inr 0%Z))
           [lit "example_usage.py"; lit "MitmDump"]).
  split; reflexivity.
Defined.

Lemma install_dependencies_result_witness :
  spawn (example_machine true (inr 1%Z))
    (pip_command (example_machine true (inr 1%Z))) = inr 1%Z /\
  (install_dependencies (example_machine true (inr 1%Z))).2 = inr false.
Proof.
  split; [reflexivity|].
  apply (install_dependencies_result (example_machine true (inr 1%Z))).
  left. exists 1%Z. split; [discriminate | reflexivity].
Defined.

Lemma main_raises_only_unhandled_witness :
  (main ascii_lower (example_machine true (inl (OtherException (lit "permission denied"))))
     [lit "example_usage.py"; lit "mitmweb"]).2
  = inl (OtherException (lit "permission denied")).
Proof.
  apply (main_raises_only_unhandled ascii_lower
           (example_machine true (inl (OtherException (lit "permission denied"))))
           [lit "example_usage.py"; lit "mitmweb"]).
  right. exists (lit "mitmweb").
  repeat split; try reflexivity; try discriminate. now right.
Defined.

Lemma intercepting_logged_iff_witness :
  In (INFO, Intercepting (pretty_url (request youtube_flow)))
    (logged ascii_lower mini_parse mini_decode YouTubeInterceptor_init youtube_flow).
Proof.
  apply (intercepting_logged_iff ascii_lower mini_parse mini_decode
           YouTubeInterceptor_init youtube_flow).
  repeat split. now eexists _, _.
Defined.

Lemma escape_flow_mutated :
  mutated_tree ascii_lower mini_parse YouTubeInterceptor_init escape_flow
  = Some surrogate_page_injected.
Proof. vm_compute. reflexivity. Qed.

Lemma surrogate_fault_logged :
  In (ERROR, ErrorProcessing (pretty_url (request escape_flow))
               (UnicodeEncodeError 1648))
    (logged ascii_lower mini_parse mini_decode YouTubeInterceptor_init escape_flow).
Proof. vm_compute. right. left. reflexivity. Qed.

Lemma unreconciled_iff_surrogate_witness :
  exists l c r,
    mini_decode surrogate_page_injected = l ++ c :: r /\ length l = 1648%nat /\
    Forall is_scalar l /\ ~ is_scalar c.
Proof.
  pose proof (proj2 (unreconciled_iff_surrogate ascii_lower mini_parse
                       mini_decode YouTubeInterceptor_init escape_flow
                       surrogate_page_injected escape_flow_mutated)
                1648%nat) as H.
  apply (proj1 H). exact surrogate_fault_logged.
Defined.

Lemma injected_under_engine_witness :
  let engine := set_text_in ascii_lower encode_latin1 text_only in
  In (INFO, Injected (pretty_url (request latin1_flow)))
    (logged_engine ascii_lower mini_parse mini_decode engine
       YouTubeInterceptor_init latin1_flow).
Proof.
  intros engine.
  apply (injected_under_engine ascii_lower mini_parse mini_decode engine
           YouTubeInterceptor_init latin1_flow).
  exists latin1_page_injected, latin1_page_utf8.
  split; [exact latin1_flow_mutated|]. cbv zeta.
  split; [vm_compute; reflexivity|]. split; [exact latin1_page_encoded|].
  vm_compute. reflexivity.
Defined.

Lemma surrogate_page_not_encoded :
  encode_utf8 (mini_decode surrogate_page_injected) = inl (UnicodeEncodeError 1648).
Proof. vm_compute. reflexivity. Qed.

Lemma fault_after_set_text_is_logged_witness :
  let engine := set_text_in ascii_lower encode_raw_unicode_escape text_only in
  let url := pretty_url (request escape_flow) in
  response_engine ascii_lower mini_parse mini_decode engine
    YouTubeInterceptor_init escape_flow
  = (Normal tt,
     mkWorld
       (mkFlow (request escape_flow)
          (engine (mini_decode surrogate_page_injected) (flow_response escape_flow)).1)
       [(INFO, Intercepting url);
        (ERROR, ErrorProcessing url (UnicodeEncodeError 1648))]).
Proof.
  intros engine url.
  apply (fault_after_set_text_is_logged ascii_lower mini_parse mini_decode engine
           YouTubeInterceptor_init escape_flow surrogate_page_injected
           (UnicodeEncodeError 1648) escape_flow_mutated).
  right. split; [vm_compute; reflexivity | exact surrogate_page_not_encoded].
Defined.
